(** * mediaire_toolbox.queue.redis_wq : a work queue on top of Redis

    A shallow embedding of [RedisWQ] (src/mediaire_toolbox/queue/redis_wq.py)
    together with the Redis commands it issues, and the properties of the
    queue protocol stated over that embedding.

    Conventions.
    - Python [bytes] are [list byte]; Python [str] values (key names, the
      session id, error messages) are [string], read as their UTF-8 bytes,
      so that [msg.encode('utf-8')] is [list_byte_of_string].
    - Python [int] is [Z].
    - The Redis keyspace is a [gmap] from key names to entries. *)

From Stdlib Require Import ZArith Lia Strings.Byte Ascii String List.
From stdpp Require Import base decidable option list gmap strings fin_maps.

Import ListNotations.
#[local] Open Scope string_scope.
#[local] Open Scope list_scope.
#[local] Open Scope Z_scope.

Abbreviation bytes := (list byte).

#[global] Instance byte_eq_dec : EqDecision byte.
Proof.
  intros a b.
  destruct (decide (Byte.to_N a = Byte.to_N b)) as [H | H]; [left | right].
  - apply (f_equal Byte.of_N) in H. rewrite !Byte.of_to_N in H. congruence.
  - congruence.
Defined.

(** ** Hexadecimal rendering *)

Module Hex.

Definition digit (d : Z) : ascii :=
  if d <? 10 then ascii_of_N (Z.to_N (48 + d))
  else ascii_of_N (Z.to_N (87 + d)).

(** [render n x] is ['%0nx' % x]: the [n] low hexadecimal digits of [x],
    most significant first. *)
Fixpoint render (n : nat) (x : Z) : string :=
  match n with
  | O => EmptyString
  | S n' => render n' (x / 16) +:+ String (digit (x mod 16)) EmptyString
  end.

Definition is_digit (c : ascii) : bool :=
  let n := Z.of_N (N_of_ascii c) in
  ((48 <=? n) && (n <=? 57)) || ((97 <=? n) && (n <=? 102)).

Fixpoint all_digits (s : string) : bool :=
  match s with
  | EmptyString => true
  | String c s' => is_digit c && all_digits s'
  end.

End Hex.

(** ** hashlib.sha224 (FIPS 180-4) *)

Module SHA224.

Definition w32 (x : Z) : Z := x mod 2 ^ 32.
Definition add32 (x y : Z) : Z := w32 (x + y).
Definition rotr (n x : Z) : Z :=
  w32 (Z.lor (Z.shiftr x n) (Z.shiftl x (32 - n))).
Definition shr (n x : Z) : Z := Z.shiftr x n.

Definition Ch (x y z : Z) : Z :=
  Z.lxor (Z.land x y) (Z.land (Z.lxor x (2 ^ 32 - 1)) z).
Definition Maj (x y z : Z) : Z :=
  Z.lxor (Z.lxor (Z.land x y) (Z.land x z)) (Z.land y z).
Definition Sigma0 (x : Z) : Z :=
  Z.lxor (Z.lxor (rotr 2 x) (rotr 13 x)) (rotr 22 x).
Definition Sigma1 (x : Z) : Z :=
  Z.lxor (Z.lxor (rotr 6 x) (rotr 11 x)) (rotr 25 x).
Definition sigma0 (x : Z) : Z :=
  Z.lxor (Z.lxor (rotr 7 x) (rotr 18 x)) (shr 3 x).
Definition sigma1 (x : Z) : Z :=
  Z.lxor (Z.lxor (rotr 17 x) (rotr 19 x)) (shr 10 x).

(** The first primes, by trial division. *)
Definition is_prime (n : Z) : bool :=
  forallb (fun d => negb (n mod Z.of_nat d =? 0)) (seq 2 (Z.to_nat n - 2)).

Definition primes (count : nat) : list Z :=
  firstn count (filter (fun n => is_prime n = true) (map Z.of_nat (seq 2 310))).

(** The integer cube root, one bit at a time from bit [bits - 1] down. *)
Fixpoint cbrt (bits : nat) (x r : Z) : Z :=
  match bits with
  | O => r
  | S b =>
      let c := r + 2 ^ Z.of_nat b in
      cbrt b x (if c * c * c <=? x then c else r)
  end.

(** The round constants: the first 32 bits of the fractional parts of the
    cube roots of the first 64 primes. *)
Definition K : list Z :=
  Eval vm_compute in map (fun p => w32 (cbrt 40 (p * 2 ^ 96) 0)) (primes 64).

(** The eight working variables / chaining values. *)
Record state := State { ha : Z; hb : Z; hc : Z; hd : Z;
                        he : Z; hf : Z; hg : Z; hh : Z }.

(** The initial value of SHA-224: the second 32 bits of the fractional
    parts of the square roots of the 9th to the 16th prime. *)
Definition iv (ps : list Z) (i : nat) : Z :=
  w32 (Z.sqrt (nth i ps 0 * 2 ^ 128)).

Definition init : state :=
  Eval vm_compute in
    let ps := primes 16 in
    State (iv ps 8) (iv ps 9) (iv ps 10) (iv ps 11)
          (iv ps 12) (iv ps 13) (iv ps 14) (iv ps 15).

Definition byteZ (b : byte) : Z := Z.of_N (Byte.to_N b).

(** Padding: a one bit, zeros up to 56 mod 64, the bit length on 8 bytes. *)
Definition pad (msg : bytes) : list Z :=
  let n := Z.of_nat (length msg) in
  let zeros := Z.to_nat ((55 - n) mod 64) in
  map byteZ msg ++ [0x80] ++ repeat 0 zeros
    ++ map (fun i => (8 * n / 2 ^ (8 * i)) mod 256) [7; 6; 5; 4; 3; 2; 1; 0].

Fixpoint words (bs : list Z) : list Z :=
  match bs with
  | b0 :: b1 :: b2 :: b3 :: rest =>
      (b0 * 2 ^ 24 + b1 * 2 ^ 16 + b2 * 2 ^ 8 + b3) :: words rest
  | _ => []
  end.

Fixpoint blocks (fuel : nat) (ws : list Z) : list (list Z) :=
  match fuel, ws with
  | S fuel', _ :: _ => firstn 16 ws :: blocks fuel' (skipn 16 ws)
  | _, _ => []
  end.

Fixpoint schedule (n : nat) (w : list Z) : list Z :=
  match n with
  | O => w
  | S n' =>
      let t := length w in
      let x := add32 (add32 (sigma1 (nth (t - 2) w 0)) (nth (t - 7) w 0))
                     (add32 (sigma0 (nth (t - 15) w 0)) (nth (t - 16) w 0)) in
      schedule n' (w ++ [x])
  end.

Definition round (s : state) (kw : Z * Z) : state :=
  let t1 := add32 (add32 (add32 (hh s) (Sigma1 (he s)))
                         (add32 (Ch (he s) (hf s) (hg s)) (fst kw))) (snd kw) in
  let t2 := add32 (Sigma0 (ha s)) (Maj (ha s) (hb s) (hc s)) in
  State (add32 t1 t2) (ha s) (hb s) (hc s) (add32 (hd s) t1) (he s) (hf s) (hg s).

Definition compress (s : state) (block : list Z) : state :=
  let r := fold_left round (combine K (schedule 48 block)) s in
  State (add32 (ha s) (ha r)) (add32 (hb s) (hb r))
        (add32 (hc s) (hc r)) (add32 (hd s) (hd r))
        (add32 (he s) (he r)) (add32 (hf s) (hf r))
        (add32 (hg s) (hg r)) (add32 (hh s) (hh r)).

Definition digest_state (msg : bytes) : state :=
  let ws := words (pad msg) in
  fold_left compress (blocks (length ws) ws) init.

(** [hashlib.sha224(msg).hexdigest()]: the first seven words, in hex. *)
Definition hexdigest (msg : bytes) : string :=
  let s := digest_state msg in
  Hex.render 8 (ha s) +:+ Hex.render 8 (hb s) +:+ Hex.render 8 (hc s)
    +:+ Hex.render 8 (hd s) +:+ Hex.render 8 (he s) +:+ Hex.render 8 (hf s)
    +:+ Hex.render 8 (hg s).

End SHA224.

(** ** uuid.uuid4 *)

Module UUID.

(** [uuid.UUID(bytes=os.urandom(16), version=4)]: the 128 random bits
    [rand], with the variant and version fields overwritten. *)
Definition uuid4 (rand : Z) : Z :=
  let i := rand mod 2 ^ 128 in
  let i := Z.land i (Z.lnot (Z.shiftl 0xc000 48)) in
  let i := Z.lor i (Z.shiftl 0x8000 48) in
  let i := Z.land i (Z.lnot (Z.shiftl 0xf000 64)) in
  Z.lor i (Z.shiftl 4 76).

(** [str(u)]: 32 hex digits grouped 8-4-4-4-12. *)
Definition str (u : Z) : string :=
  let hex := Hex.render 32 u in
  substring 0 8 hex +:+ "-" +:+ substring 8 4 hex +:+ "-"
    +:+ substring 12 4 hex +:+ "-" +:+ substring 16 4 hex +:+ "-"
    +:+ substring 20 12 hex.

End UUID.

(** ** Outcomes of a call *)

(** What a call can raise: the three [redis.ResponseError]s of the commands
    below (a key that holds the wrong kind of value, an expire time that is
    not positive, a negative timeout) and a failed [assert]. *)
Inductive exn :=
  | WRONGTYPE
  | InvalidExpire
  | NegativeTimeout
  | AssertionError.

(** A call returns, raises, or waits for ever. *)
Inductive outcome (A : Type) :=
  | Ret (a : A)
  | Raise (e : exn)
  | Hang.
Arguments Ret {A} a.
Arguments Raise {A} e.
Arguments Hang {A}.

(** ** The Redis commands issued through redis-py *)

Module Redis.

(** A key holds a string (with an optional time to live, in seconds) or a
    list; index 0 of a list is its head (the LPUSH end). *)
Inductive entry :=
  | Str (v : bytes) (ttl : option Z)
  | Lst (l : list bytes).

#[global] Instance entry_eq_dec : EqDecision entry.
Proof. solve_decision. Defined.

Abbreviation keyspace := (gmap string entry).

Definition cmd (A : Type) : Type := keyspace -> outcome A * keyspace.

(** The list under [k]: a missing key reads as the empty list, a key that
    holds a string is not a list. *)
Definition list_at (ks : keyspace) (k : string) : option (list bytes) :=
  match ks !! k with
  | None => Some []
  | Some (Lst l) => Some l
  | Some (Str _ _) => None
  end.

(** Redis keeps no empty list: the key goes when its last element goes. *)
Definition store_list (k : string) (l : list bytes) (ks : keyspace) : keyspace :=
  match l with
  | [] => delete k ks
  | _ :: _ => <[k := Lst l]> ks
  end.

Definition LLEN (k : string) : cmd Z := fun ks =>
  match list_at ks k with
  | None => (Raise WRONGTYPE, ks)
  | Some l => (Ret (Z.of_nat (length l)), ks)
  end.

Definition LPUSH (k : string) (v : bytes) : cmd Z := fun ks =>
  match list_at ks k with
  | None => (Raise WRONGTYPE, ks)
  | Some l => (Ret (Z.of_nat (length (v :: l))), <[k := Lst (v :: l)]> ks)
  end.

(** Pop the tail of [src] and push it on the head of [dst]; nil when [src]
    is empty.  Both types are checked before anything moves. *)
Definition RPOPLPUSH (src dst : string) : cmd (option bytes) := fun ks =>
  match list_at ks src with
  | None => (Raise WRONGTYPE, ks)
  | Some l =>
      match last l with
      | None => (Ret None, ks)
      | Some x =>
          match list_at ks dst with
          | None => (Raise WRONGTYPE, ks)
          | Some _ =>
              let ks1 := store_list src (removelast l) ks in
              let d := default [] (list_at ks1 dst) in
              (Ret (Some x), <[dst := Lst (x :: d)]> ks1)
          end
      end
  end.

(** The blocking variant.  redis-py sends timeout 0 for [None], and 0 waits
    without bound.  While the client waits on an empty [src] the rest of
    the world goes on: [arrival] is the element some other client pushes
    on [src] before the timeout, if any. *)
Definition BRPOPLPUSH (src dst : string) (timeout : option Z)
    (arrival : option bytes) : cmd (option bytes) := fun ks =>
  let t := default 0 timeout in
  if t <? 0 then (Raise NegativeTimeout, ks)
  else
    match list_at ks src with
    | None => (Raise WRONGTYPE, ks)
    | Some (_ :: _) => RPOPLPUSH src dst ks
    | Some [] =>
        match arrival with
        | Some x => RPOPLPUSH src dst (<[src := Lst [x]]> ks)
        | None => if t =? 0 then (Hang, ks) else (Ret None, ks)
        end
    end.

Definition SETEX (k : string) (seconds : Z) (v : bytes) : cmd unit := fun ks =>
  if seconds <=? 0 then (Raise InvalidExpire, ks)
  else (Ret tt, <[k := Str v (Some seconds)]> ks).

(** Drop the first [n] elements equal to [v], head to tail. *)
Fixpoint remove_n (n : nat) (v : bytes) (l : list bytes) : list bytes :=
  match n, l with
  | O, _ => l
  | _, [] => []
  | S n', x :: l' =>
      if decide (x = v) then remove_n n' v l' else x :: remove_n n v l'
  end.

Definition lrem_list (count : Z) (v : bytes) (l : list bytes) : list bytes :=
  if count =? 0 then filter (fun x => x <> v) l
  else if 0 <? count then remove_n (Z.to_nat count) v l
  else rev (remove_n (Z.to_nat (- count)) v (rev l)).

(** Remove occurrences of [v] (all of them when [count] is 0); the reply is
    the number removed. *)
Definition LREM (k : string) (count : Z) (v : bytes) : cmd Z := fun ks =>
  match list_at ks k with
  | None => (Raise WRONGTYPE, ks)
  | Some l =>
      let l' := lrem_list count v l in
      let removed := Z.of_nat (length l - length l') in
      (Ret removed, if removed =? 0 then ks else store_list k l' ks)
  end.

Definition del1 (acc : Z * keyspace) (k : string) : Z * keyspace :=
  match snd acc !! k with
  | Some _ => (fst acc + 1, delete k (snd acc))
  | None => acc
  end.

(** Delete every key of [names] that exists, whatever it holds; the reply
    is the number of keys deleted. *)
Definition DEL (names : list string) : cmd Z := fun ks =>
  let r := fold_left del1 names (0, ks) in
  (Ret (fst r), snd r).

(** The number of the keys of [names] that exist, whatever they hold (a
    name given twice counts twice). *)
Definition EXISTS (names : list string) : cmd Z := fun ks =>
  (Ret (Z.of_nat (length (filter (fun k => is_Some (ks !! k)) names))), ks).

End Redis.

Import Redis.

(** ** class RedisWQ *)

Module RedisWQ.

(** The attributes set by [__init__]. *)
Record attrs := Attrs {
  _session : string;
  _main_q_key : string;
  _processing_q_key : string;
  _error_q_key : string;
  _error_messages_q_key : string;
  _lease_key_prefix : string
}.

(** What a method can read and write: the object and the keyspace behind
    its [_db] handle. *)
Record world := World { self : attrs; db : keyspace }.

Definition M (A : Type) : Type := world -> outcome A * world.

#[global] Instance M_ret : MRet M := fun A a w => (Ret a, w).

#[global] Instance M_bind : MBind M := fun A B f m w =>
  match m w with
  | (Ret a, w') => f a w'
  | (Raise e, w') => (Raise e, w')
  | (Hang, w') => (Hang, w')
  end.

Definition raise {A} (e : exn) : M A := fun w => (Raise e, w).

Definition get_self : M attrs := fun w => (Ret (self w), w).

(** [self._db.<command>(...)] *)
Definition on_db {A} (c : cmd A) : M A := fun w =>
  let r := c (db w) in (fst r, World (self w) (snd r)).

(** [name] is the queue name, [rand] the 16 random bytes [uuid4] draws,
    [ks] the keyspace of the Redis instance the handle refers to. *)
Definition __init__ (name : string) (rand : Z) (ks : keyspace) : world :=
  World
    {| _session := UUID.str (UUID.uuid4 rand);
       _main_q_key := name;
       _processing_q_key := name +:+ ":processing";
       _error_q_key := name +:+ ":errors";
       _error_messages_q_key := name +:+ ":error_messages";
       _lease_key_prefix := name +:+ ":leased_by_session:" |}
    ks.

Definition sessionID : M string :=
  q ← get_self; mret (_session q).

Definition _main_qsize : M Z :=
  q ← get_self; on_db (LLEN (_main_q_key q)).

Definition _processing_qsize : M Z :=
  q ← get_self; on_db (LLEN (_processing_q_key q)).

(** [a == 0 and b == 0]: the second length is read only when the first
    is zero. *)
Definition empty : M bool :=
  n ← _main_qsize;
  if n =? 0 then (m ← _processing_qsize; mret (m =? 0)) else mret false.

Definition _itemkey (item : bytes) : string := SHA224.hexdigest item.

(** [self._db.exists(key)]: 1 when the lease key of [item] exists, else 0
    (the [True] and [False] of the older clients are these numbers). *)
Definition _lease_exists (item : bytes) : M Z :=
  q ← get_self;
  on_db (EXISTS [_lease_key_prefix q +:+ _itemkey item]).

Definition put (item : bytes) : M unit :=
  q ← get_self;
  on_db (LPUSH (_main_q_key q) item);;
  mret tt.

(** Truth value of a [bytes] object: false exactly for [b'']. *)
Definition truthy (item : bytes) : bool :=
  match item with [] => false | _ :: _ => true end.

(** [arrival] is what the world does during a blocking wait, see
    [BRPOPLPUSH]. *)
Definition lease (lease_secs : Z) (block : bool) (timeout : option Z)
    (arrival : option bytes) : M (option bytes) :=
  q ← get_self;
  item ← (if block
          then on_db (BRPOPLPUSH (_main_q_key q) (_processing_q_key q)
                                 timeout arrival)
          else on_db (RPOPLPUSH (_main_q_key q) (_processing_q_key q)));
  match item with
  | Some i =>
      if truthy i then
        let itemkey := _itemkey i in
        on_db (SETEX (_lease_key_prefix q +:+ itemkey) lease_secs
                     (list_byte_of_string (_session q)));;
        mret item
      else mret item
  | None => mret item
  end.

Definition error (value : bytes) (msg : option string) : M unit :=
  q ← get_self;
  let msg := default "unknown error" msg in
  exit_code ← on_db (LREM (_processing_q_key q) 0 value);
  if exit_code =? 0 then mret tt
  else
    len_errors ← on_db (LPUSH (_error_q_key q) value);
    len_msgs ← on_db (LPUSH (_error_messages_q_key q)
                            (list_byte_of_string msg));
    if len_errors =? len_msgs then mret tt else raise AssertionError.

Definition complete (value : bytes) : M unit :=
  q ← get_self;
  on_db (LREM (_processing_q_key q) 0 value);;
  let itemkey := _itemkey value in
  on_db (DEL [_lease_key_prefix q +:+ itemkey; _session q]);;
  mret tt.

End RedisWQ.

Import RedisWQ.

(** * Notions used in the statements *)

(** The state after a call, whatever its outcome, and after a sequence of
    calls made one after the other. *)
Definition after {A} (m : M A) (w : world) : world := snd (m w).

Definition after_all {A} (ms : list (M A)) (w : world) : world :=
  fold_left (fun w m => after m w) ms w.

(** The error list and the error-message list are lists of one length. *)
Definition aligned (ks : keyspace) (q : attrs) : Prop :=
  exists le lm : list bytes,
    list_at ks (_error_q_key q) = Some le /\
    list_at ks (_error_messages_q_key q) = Some lm /\
    length le = length lm.

(** The keyspace after a lease that moved [x]: the lease record is written
    only for an item that is true as a Python value. *)
Definition leased (q : attrs) (lease_secs : Z) (x : bytes) (l d : list bytes)
    (ks : keyspace) : keyspace :=
  let moved :=
    <[_processing_q_key q := Lst (x :: d)]> (store_list (_main_q_key q) l ks) in
  if truthy x
  then <[_lease_key_prefix q +:+ _itemkey x :=
           Str (list_byte_of_string (_session q)) (Some lease_secs)]> moved
  else moved.

Fixpoint put_all (items : list bytes) : M unit :=
  match items with
  | [] => mret tt
  | x :: rest => put x;; put_all rest
  end.

(** [n] non-blocking leases with the default [lease_secs=5], one after the
    other; the results in call order. *)
Fixpoint lease_n (n : nat) : M (list (option bytes)) :=
  match n with
  | O => mret []
  | S n' => r ← lease 5 false None None; rs ← lease_n n'; mret (r :: rs)
  end.

(** No string record appears except with value [s]: a string found at a
    key afterwards was there before, or holds [s]. *)
Definition no_new_str (s : bytes) (ks ks' : keyspace) : Prop :=
  forall (k : string) (v : bytes) (ttl : option Z),
    ks' !! k = Some (Str v ttl) -> ks !! k = Some (Str v ttl) \/ v = s.

(** The list commands write no string record at all. *)
Definition list_cmd {A} (c : cmd A) : Prop :=
  forall (s : bytes) (ks : keyspace), no_new_str s ks (snd (c ks)).

(** A method body keeps the object [q] as it is and writes no string record
    but with the session id of [q] as value. *)
Definition keeps (q : attrs) {A} (m : M A) : Prop :=
  forall w : world, self w = q ->
    self (snd (m w)) = q /\
    no_new_str (list_byte_of_string (_session q)) (db w) (db (snd (m w))).

(** The calls a client makes on an instance; the state after a call is the
    state the method left, whether it returned, raised or never came back. *)
Inductive call :=
  | Put (item : bytes)
  | Lease (lease_secs : Z) (block : bool) (timeout : option Z)
          (arrival : option bytes)
  | Error (value : bytes) (msg : option string)
  | Complete (value : bytes)
  | Empty
  | SessionID.

Definition exec (c : call) (w : world) : world :=
  match c with
  | Put item => after (put item) w
  | Lease lease_secs block timeout arrival =>
      after (lease lease_secs block timeout arrival) w
  | Error value msg => after (error value msg) w
  | Complete value => after (complete value) w
  | Empty => after empty w
  | SessionID => after sessionID w
  end.

Definition exec_all (cs : list call) (w : world) : world :=
  fold_left (fun w c => exec c w) cs w.

(** A string without a colon. *)
Fixpoint colon_free (s : string) : bool :=
  match s with
  | EmptyString => true
  | String c s' => negb (Ascii.eqb c ":") && colon_free s'
  end.

(** The keys a queue named [name] may read or write: its four lists and
    its lease keys. *)
Definition queue_key (name k : string) : Prop :=
  k = name \/ k = name +:+ ":processing" \/ k = name +:+ ":errors" \/
  k = name +:+ ":error_messages" \/
  exists h : string, k = (name +:+ ":leased_by_session:") +:+ h.

(** Producers and consumers of one queue: a [put], or a non-blocking
    [lease] with the default [lease_secs]. *)
Inductive qop :=
  | QPut (item : bytes)
  | QLease.

(** The calls of [ops] one after the other; the results of the leases. *)
Fixpoint run_qops (ops : list qop) : M (list (option bytes)) :=
  match ops with
  | [] => mret []
  | QPut item :: rest => put item;; run_qops rest
  | QLease :: rest =>
      r ← lease 5 false None None; rs ← run_qops rest; mret (r :: rs)
  end.

(** What a first-in first-out queue answers to the leases of [ops];
    [waiting] holds the items put and not yet leased, oldest first. *)
Fixpoint fifo (ops : list qop) (waiting : list bytes) : list (option bytes) :=
  match ops with
  | [] => []
  | QPut item :: rest => fifo rest (waiting ++ [item])
  | QLease :: rest =>
      match waiting with
      | [] => None :: fifo rest []
      | x :: waiting' => Some x :: fifo rest waiting'
      end
  end.

(** * The rate limiter of [lease] *)

Module RateLimit.

(** Modelled from the spec: the state of the limiter, which is missing
    from src/.  [counts] holds the bucket counters (one store key per
    bucket, here keyed by the bucket), [armed] lists the buckets whose
    counter had an expiry set, one entry per [expire] call in call
    order, [reads] counts the clock readings and [sleeps] the backoff
    sleeps.  [inner] is the queue state of the methods above. *)
Record lstate := LState {
  inner : world;
  counts : gmap Z Z;
  armed : list Z;
  reads : nat;
  sleeps : nat
}.

Definition L (A : Type) : Type := lstate -> outcome A * lstate.

#[global] Instance L_ret : MRet L := fun A a s => (Ret a, s).

#[global] Instance L_bind : MBind L := fun A B f m s =>
  match m s with
  | (Ret a, s') => f a s'
  | (Raise e, s') => (Raise e, s')
  | (Hang, s') => (Hang, s')
  end.

(** A method of the queue run on the queue state. *)
Definition lift {A} (m : M A) : L A := fun s =>
  let r := m (inner s) in
  (fst r, LState (snd r) (counts s) (armed s) (reads s) (sleeps s)).

Definition hang {A} : L A := fun s => (Hang, s).

(** Modelled from the spec: the backoff sleep between two tries, missing
    from src/. *)
Definition sleep : L unit := fun s =>
  (Ret tt, LState (inner s) (counts s) (armed s) (reads s) (S (sleeps s))).

(** Modelled from the spec: the store commands on the counter of a bucket,
    [get], [incr] and [expire]; their use is missing from src/, and
    tests/test_redis_wq.py has a test double of them. *)
Definition get (ts : Z) : L (option Z) := fun s => (Ret (counts s !! ts), s).

Definition incr (ts : Z) : L Z := fun s =>
  let n := match counts s !! ts with Some c => c + 1 | None => 1 end in
  (Ret n, LState (inner s) (<[ts := n]> (counts s)) (armed s) (reads s) (sleeps s)).

Definition expire (ts : Z) : L unit := fun s =>
  (Ret tt, LState (inner s) (counts s) (armed s ++ [ts]) (reads s) (sleeps s)).

(** The arguments of one [lease] call. *)
Record lease_args := LeaseArgs {
  lease_secs : Z;
  block : bool;
  timeout : option Z;
  arrival : option bytes
}.

Definition plain_lease (a : lease_args) : M (option bytes) :=
  lease (lease_secs a) (block a) (timeout a) (arrival a).

Section Limiter.

(** Modelled from the spec: the time source, which is missing from
    src/ (only tests/test_redis_wq.py patches [_get_timestamp]).  It is
    injected: [clock n] is the time bucket that the [n]-th reading
    returns, as the [side_effect] list of the tests. *)
Variable clock : nat -> Z.

(** Modelled from the spec: [_get_timestamp()], missing from src/. *)
Definition _get_timestamp : L Z := fun s =>
  (Ret (clock (reads s)),
   LState (inner s) (counts s) (armed s) (S (reads s)) (sleeps s)).

(** Modelled from the spec: [_limit_rate(limit)], missing from src/.
    No limit permits and touches nothing.  With a limit, the call is
    permitted when fewer than [limit] leases were issued in the current
    bucket; a permitted call increments the counter, and the first one
    of a bucket arms the expiry of the counter. *)
Definition _limit_rate (limit : option Z) : L bool :=
  match limit with
  | None => mret true
  | Some n =>
      ts ← _get_timestamp;
      count ← get ts;
      match count with
      | Some c =>
          if n <=? c then mret false else (incr ts;; mret true)
      | None => incr ts;; expire ts;; mret true
      end
  end.

(** Modelled from the spec: the first step of [lease(..., limit)],
    missing from src/: while the limiter denies, sleep and try again.
    [fuel] bounds the tries the model follows; a wait that outlasts it
    is reported as [Hang]. *)
Fixpoint wait_for_rate (fuel : nat) (limit : option Z) : L unit :=
  permitted ← _limit_rate limit;
  if permitted : bool then mret tt
  else
    match fuel return L unit with
    | O => hang
    | S fuel' => sleep;; wait_for_rate fuel' limit
    end.

(** Modelled from the spec: [lease(lease_secs, block, timeout, limit)],
    the limiter first, then the body of [lease] as in src/. *)
Definition lease_limited (fuel : nat) (a : lease_args) (limit : option Z)
    : L (option bytes) :=
  wait_for_rate fuel limit;; lift (plain_lease a).

(** The state after a series of calls, each started when the one before
    is over, whatever its outcome. *)
Definition calls (fuel : nat) (limit : option Z) (l : list lease_args)
    (s : lstate) : lstate :=
  fold_left (fun s a => snd (lease_limited fuel a limit s)) l s.

End Limiter.

End RateLimit.

(** * Properties *)

(** ** Strings and key names *)

Lemma append_empty_r (s : string) : s +:+ "" = s.
Proof.
  induction s as [| c s IH]; [reflexivity |].
  change (String c (s +:+ "") = String c s). by rewrite IH.
Qed.

Lemma append_inv_head (s a b : string) : s +:+ a = s +:+ b -> a = b.
Proof. apply String.app_inj. Qed.

Lemma append_assoc' (s a b : string) : (s +:+ a) +:+ b = s +:+ (a +:+ b).
Proof.
  induction s as [| c s IH]; [reflexivity |].
  change (String c ((s +:+ a) +:+ b) = String c (s +:+ (a +:+ b))).
  by rewrite IH.
Qed.

Lemma append_ne (s a b : string) : a <> b -> s +:+ a <> s +:+ b.
Proof. intros Hab H. by apply append_inv_head in H. Qed.

Lemma append_ne_self (s : string) (c : ascii) (t : string) : s <> s +:+ String c t.
Proof.
  intros H. apply (append_ne s "" (String c t)); [discriminate |].
  by rewrite append_empty_r.
Qed.

(** The four list keys of a queue are pairwise distinct, and no lease key
    is one of them. *)
Lemma keys_distinct (name : string) (rand : Z) (ks : keyspace) :
  let q := self (__init__ name rand ks) in
  _main_q_key q <> _processing_q_key q /\
  _main_q_key q <> _error_q_key q /\
  _main_q_key q <> _error_messages_q_key q /\
  _processing_q_key q <> _error_q_key q /\
  _processing_q_key q <> _error_messages_q_key q /\
  _error_q_key q <> _error_messages_q_key q.
Proof.
  simpl. repeat split;
    first [ apply append_ne_self | apply append_ne; discriminate ].
Qed.

Lemma lease_key_distinct (name : string) (rand : Z) (ks : keyspace) (h : string) :
  let q := self (__init__ name rand ks) in
  _lease_key_prefix q +:+ h <> _main_q_key q /\
  _lease_key_prefix q +:+ h <> _processing_q_key q /\
  _lease_key_prefix q +:+ h <> _error_q_key q /\
  _lease_key_prefix q +:+ h <> _error_messages_q_key q.
Proof.
  simpl. rewrite append_assoc'. repeat split.
  - intros H. symmetry in H. revert H. apply append_ne_self.
  - apply append_ne. discriminate.
  - apply append_ne. discriminate.
  - apply append_ne. discriminate.
Qed.

(** ** The keyspace *)

Lemma list_at_insert_eq (ks : keyspace) (k : string) (l : list bytes) :
  list_at (<[k := Lst l]> ks) k = Some l.
Proof. unfold list_at. by rewrite lookup_insert_eq. Qed.

Lemma list_at_insert_ne (ks : keyspace) (k k' : string) (e : entry) :
  k <> k' -> list_at (<[k := e]> ks) k' = list_at ks k'.
Proof. intros H. unfold list_at. by rewrite lookup_insert_ne. Qed.

Lemma list_at_delete_eq (ks : keyspace) (k : string) :
  list_at (delete k ks) k = Some [].
Proof. unfold list_at. by rewrite lookup_delete_eq. Qed.

Lemma list_at_delete_ne (ks : keyspace) (k k' : string) :
  k <> k' -> list_at (delete k ks) k' = list_at ks k'.
Proof. intros H. unfold list_at. by rewrite lookup_delete_ne. Qed.

Lemma list_at_store_eq (ks : keyspace) (k : string) (l : list bytes) :
  list_at (store_list k l ks) k = Some l.
Proof.
  destruct l; simpl; [apply list_at_delete_eq | apply list_at_insert_eq].
Qed.

Lemma list_at_store_ne (ks : keyspace) (k k' : string) (l : list bytes) :
  k <> k' -> list_at (store_list k l ks) k' = list_at ks k'.
Proof.
  intros H. destruct l; simpl;
    [by apply list_at_delete_ne | by apply list_at_insert_ne].
Qed.

Lemma lookup_store_ne (ks : keyspace) (k k' : string) (l : list bytes) :
  k <> k' -> store_list k l ks !! k' = ks !! k'.
Proof.
  intros H. destruct l; simpl;
    [by rewrite lookup_delete_ne | by rewrite lookup_insert_ne].
Qed.

(** Removing every occurrence of an element that does not occur. *)
Lemma lrem_all_absent (v : bytes) (l : list bytes) :
  v ∉ l -> lrem_list 0 v l = l.
Proof.
  unfold lrem_list. simpl. induction l as [| x l IH]; intros H; [done |].
  apply not_elem_of_cons in H as [Hx Hl].
  rewrite filter_cons_True by congruence. by rewrite IH.
Qed.

Lemma lrem_all_present (v : bytes) (l : list bytes) :
  v ∈ l -> (length (lrem_list 0 v l) < length l)%nat.
Proof.
  unfold lrem_list. simpl. induction l as [| x l IH]; intros H.
  - by apply elem_of_nil in H.
  - destruct (decide (x = v)) as [-> | Hne].
    + rewrite filter_cons_False by (intros ?; congruence).
      pose proof (length_filter (fun y => y <> v) l). simpl. lia.
    + rewrite filter_cons_True by done. simpl.
      apply elem_of_cons in H as [-> | H]; [done |].
      specialize (IH H). lia.
Qed.

#[global] Arguments store_list : simpl never.
#[global] Arguments lrem_list : simpl never.
#[global] Arguments SHA224.hexdigest : simpl never.
#[global] Arguments _itemkey : simpl never.
#[global] Arguments UUID.str : simpl never.
#[global] Arguments UUID.uuid4 : simpl never.

(** The replies of the commands on a key that holds a list. *)
Lemma LPUSH_ok (ks : keyspace) (k : string) (v : bytes) (l : list bytes) :
  list_at ks k = Some l ->
  LPUSH k v ks = (Ret (Z.of_nat (S (length l))), <[k := Lst (v :: l)]> ks).
Proof. intros H. unfold LPUSH. by rewrite H. Qed.

Lemma LREM_all_absent (ks : keyspace) (k : string) (v : bytes) (l : list bytes) :
  list_at ks k = Some l -> v ∉ l -> LREM k 0 v ks = (Ret 0, ks).
Proof.
  intros H Hnot. unfold LREM. rewrite H.
  by rewrite (lrem_all_absent v l Hnot), Nat.sub_diag.
Qed.

Lemma LREM_all_present (ks : keyspace) (k : string) (v : bytes) (l : list bytes) :
  list_at ks k = Some l -> v ∈ l ->
  exists n : Z,
    n <> 0 /\ LREM k 0 v ks = (Ret n, store_list k (lrem_list 0 v l) ks).
Proof.
  intros H Hin. unfold LREM. rewrite H.
  pose proof (lrem_all_present v l Hin) as Hlt.
  exists (Z.of_nat (length l - length (lrem_list 0 v l))). split; [lia |].
  destruct (Z.eqb_spec (Z.of_nat (length l - length (lrem_list 0 v l))) 0);
    [lia | reflexivity].
Qed.

Lemma LREM_wrongtype (ks : keyspace) (k : string) (c : Z) (v : bytes) :
  list_at ks k = None -> LREM k c v ks = (Raise WRONGTYPE, ks).
Proof. intros H. unfold LREM. by rewrite H. Qed.

(** Unfolding of the method bodies down to the commands. *)
Ltac wq_unfold :=
  unfold empty, _main_qsize, _processing_qsize, sessionID, put, lease, error,
    complete, _lease_exists, mbind, M_bind, mret, M_ret, get_self, on_db,
    raise; simpl.

(** ** [empty] *)

(** A queue that [empty()] reports empty has its two lists empty. *)
Lemma empty_true_lists (name : string) (rand : Z) (ks : keyspace) :
  fst (empty (__init__ name rand ks)) = Ret true ->
  list_at ks name = Some [] /\ list_at ks (name +:+ ":processing") = Some [].
Proof.
  wq_unfold. unfold LLEN.
  destruct (list_at ks name) as [[| x l] |]; simpl; try discriminate.
  destruct (list_at ks (name +:+ ":processing")) as [[| y l'] |]; simpl;
    try discriminate.
  done.
Qed.

(** C8: [empty()] returns true exactly when the pending list and the
    processing list both have length zero, and it leaves the whole state
    (the keyspace and the object) as it was. *)
Theorem empty_iff_both_lists_empty (name : string) (rand : Z) (ks : keyspace) :
  let w := __init__ name rand ks in
  (fst (empty w) = Ret true <->
     length <$> list_at ks (_main_q_key (self w)) = Some 0%nat /\
     length <$> list_at ks (_processing_q_key (self w)) = Some 0%nat) /\
  snd (empty w) = w.
Proof.
  wq_unfold. unfold LLEN.
  destruct (list_at ks name) as [[| x l] |]; simpl;
    [ destruct (list_at ks (name +:+ ":processing")) as [[| y l'] |]; simpl | .. ];
    (split; [split; [intros [=] | intros [[=] [=]]] | reflexivity]);
    auto.
Qed.

(** ** [lease] on an empty pending list *)



(** ** [error] *)

(** C3: [error] on an item that does not occur in the processing list
    returns normally and leaves the whole state untouched: the error list,
    the error-message list, the pending list and every lease key are as
    before. *)
Theorem error_absent_item_noop (name : string) (rand : Z) (ks : keyspace)
    (item : bytes) (msg : option string) (l : list bytes) :
  let w := __init__ name rand ks in
  list_at ks (_processing_q_key (self w)) = Some l ->
  item ∉ l ->
  error item msg w = (Ret tt, w).
Proof.
  intros w Hproc Hnot. subst w. simpl in Hproc.
  wq_unfold. rewrite (LREM_all_absent _ _ _ _ Hproc Hnot). simpl.
  reflexivity.
Qed.

Lemma error_absent_item_noop_witness :
  let w := __init__ "jobs" 7 {[ "jobs:processing" := Lst [[x01%byte]] ]} in
  error [x02%byte] (Some "boom") w = (Ret tt, w).
Proof.
  apply (error_absent_item_noop "jobs" 7 _ [x02%byte] (Some "boom") [[x01%byte]]).
  - reflexivity.
  - apply (bool_decide_unpack _). vm_compute. exact I.
Defined.

(** What a call of [error] does when the item is in the processing list and
    the two error lists are aligned. *)
Lemma error_present_item (name : string) (rand : Z) (ks : keyspace)
    (item : bytes) (msg : option string) (lp le lm : list bytes) :
  let w := __init__ name rand ks in
  let q := self w in
  list_at ks (_processing_q_key q) = Some lp ->
  item ∈ lp ->
  list_at ks (_error_q_key q) = Some le ->
  list_at ks (_error_messages_q_key q) = Some lm ->
  length le = length lm ->
  error item msg w =
    (Ret tt,
     World q
       (<[_error_messages_q_key q :=
            Lst (list_byte_of_string (default "unknown error" msg) :: lm)]>
          (<[_error_q_key q := Lst (item :: le)]>
             (store_list (_processing_q_key q) (lrem_list 0 item lp) ks)))).
Proof.
  intros w q Hp Hin He Hm Hlen.
  destruct (keys_distinct name rand ks) as (_ & _ & _ & Hpe & Hpm & Hem).
  subst w q. simpl in *.
  wq_unfold.
  destruct (LREM_all_present _ _ _ _ Hp Hin) as (n & Hn & ->). simpl.
  destruct (Z.eqb_spec n 0) as [? | _]; [done |]. simpl.
  rewrite (LPUSH_ok _ _ _ le) by (by rewrite list_at_store_ne). simpl.
  rewrite (LPUSH_ok _ _ _ lm)
    by (by rewrite list_at_insert_ne, list_at_store_ne).
  simpl. by rewrite Hlen, Pos.eqb_refl.
Qed.

Lemma error_preserves_aligned (name : string) (rand : Z) (ks : keyspace)
    (item : bytes) (msg : option string) :
  aligned ks (self (__init__ name rand ks)) ->
  exists ks', after (error item msg) (__init__ name rand ks) = __init__ name rand ks' /\
              aligned ks' (self (__init__ name rand ks')).
Proof.
  intros (le & lm & He & Hm & Hlen).
  destruct (keys_distinct name rand ks) as (_ & _ & _ & Hpe & Hpm & Hem).
  unfold after.
  destruct (list_at ks (_processing_q_key (self (__init__ name rand ks))))
    as [lp |] eqn:Hp.
  - destruct (decide (item ∈ lp)) as [Hin | Hnot].
    + rewrite (error_present_item name rand ks item msg lp le lm Hp Hin He Hm Hlen).
      eexists. split; [reflexivity |].
      exists (item :: le), (list_byte_of_string (default "unknown error" msg) :: lm).
      simpl in *.
      rewrite list_at_insert_ne, !list_at_insert_eq by done.
      repeat split. simpl. by rewrite Hlen.
    + exists ks. split; [| by exists le, lm].
      simpl in *. wq_unfold. by rewrite (LREM_all_absent _ _ _ _ Hp Hnot).
  - exists ks. split; [| by exists le, lm].
    simpl in *. wq_unfold. by rewrite (LREM_wrongtype _ _ _ _ Hp).
Qed.

Lemma errors_preserve_aligned (name : string) (rand : Z)
    (calls : list (bytes * option string)) (ks : keyspace) :
  aligned ks (self (__init__ name rand ks)) ->
  exists ks',
    after_all (map (fun c => error (fst c) (snd c)) calls) (__init__ name rand ks)
      = __init__ name rand ks' /\
    aligned ks' (self (__init__ name rand ks')).
Proof.
  revert ks. induction calls as [| [item msg] calls IH]; intros ks Hal.
  - exists ks. by split.
  - destruct (error_preserves_aligned name rand ks item msg Hal) as (ks1 & E1 & Hal1).
    destruct (IH ks1 Hal1) as (ks2 & E2 & Hal2).
    exists ks2. split; [| done].
    simpl. unfold after_all in E2. simpl in E1. rewrite E1. exact E2.
Qed.

(** C2: from a state where the error list and the error-message list have
    one length, an [error(item, msg)] call on an item of the processing list
    returns normally, takes every occurrence of the item out of the
    processing list, puts the item at the head of the error list and the
    message (["unknown error"] when none is given) at the head of the
    error-message list; and after any sequence of [error] calls, whatever
    their outcomes, the two lists have one length again. *)
Theorem error_keeps_lists_aligned (name : string) (rand : Z) (ks : keyspace)
    (le lm : list bytes) :
  let w := __init__ name rand ks in
  let q := self w in
  list_at ks (_error_q_key q) = Some le ->
  list_at ks (_error_messages_q_key q) = Some lm ->
  length le = length lm ->
  (forall (item : bytes) (msg : option string) (lp : list bytes),
     list_at ks (_processing_q_key q) = Some lp ->
     item ∈ lp ->
     let r := error item msg w in
     fst r = Ret tt /\
     self (snd r) = q /\
     list_at (db (snd r)) (_processing_q_key q) = Some (filter (fun x => x <> item) lp) /\
     list_at (db (snd r)) (_error_q_key q) = Some (item :: le) /\
     list_at (db (snd r)) (_error_messages_q_key q)
       = Some (list_byte_of_string (default "unknown error" msg) :: lm)) /\
  (forall calls : list (bytes * option string),
     aligned (db (after_all (map (fun c => error (fst c) (snd c)) calls) w)) q).
Proof.
  intros w q He Hm Hlen. split.
  - intros item msg lp Hp Hin r. subst r.
    destruct (keys_distinct name rand ks) as (_ & _ & _ & Hpe & Hpm & Hem).
    subst w q.
    rewrite (error_present_item name rand ks item msg lp le lm Hp Hin He Hm Hlen).
    simpl in *.
    rewrite !list_at_insert_ne, list_at_store_eq, list_at_insert_eq,
      list_at_insert_eq by done.
    done.
  - intros calls. subst w q.
    destruct (errors_preserve_aligned name rand calls ks) as (ks' & E & Hal);
      [by exists le, lm |].
    rewrite E. exact Hal.
Qed.

Lemma error_keeps_lists_aligned_witness :
  let ks : keyspace :=
    {[ "jobs:processing" := Lst [[x01%byte]; [x02%byte]; [x01%byte]] ]} in
  let w := __init__ "jobs" 7 ks in
  let r := error [x01%byte] None w in
  fst r = Ret tt /\
  list_at (db (snd r)) "jobs:processing" = Some [[x02%byte]] /\
  list_at (db (snd r)) "jobs:errors" = Some [[x01%byte]] /\
  list_at (db (snd r)) "jobs:error_messages"
    = Some [list_byte_of_string "unknown error"].
Proof.
  intros ks w r.
  destruct (error_keeps_lists_aligned "jobs" 7 ks [] []) as [H _];
    [reflexivity | reflexivity | reflexivity |].
  destruct (H [x01%byte] None [[x01%byte]; [x02%byte]; [x01%byte]])
    as (H1 & _ & H2 & H3 & H4).
  - reflexivity.
  - apply (bool_decide_unpack _). vm_compute. exact I.
  - repeat split; assumption.
Defined.

(** ** [put] and [lease]: first in, first out *)

Lemma bind_run {A B} (m : M A) (f : A -> M B) (w : world) :
  (m ≫= f) w =
    match m w with
    | (Ret a, w') => f a w'
    | (Raise e, w') => (Raise e, w')
    | (Hang, w') => (Hang, w')
    end.
Proof. reflexivity. Qed.

Lemma RPOPLPUSH_ok (ks : keyspace) (src dst : string) (l d : list bytes) (x : bytes) :
  src <> dst ->
  list_at ks src = Some (l ++ [x]) ->
  list_at ks dst = Some d ->
  RPOPLPUSH src dst ks = (Ret (Some x), <[dst := Lst (x :: d)]> (store_list src l ks)).
Proof.
  intros Hne Hs Hd. unfold RPOPLPUSH.
  rewrite Hs, last_snoc, Hd, removelast_last.
  by rewrite list_at_store_ne, Hd.
Qed.

Lemma put_ok (name : string) (rand : Z) (ks : keyspace) (item : bytes)
    (l : list bytes) :
  list_at ks name = Some l ->
  put item (__init__ name rand ks)
    = (Ret tt, __init__ name rand (<[name := Lst (item :: l)]> ks)).
Proof. intros H. wq_unfold. by rewrite (LPUSH_ok _ _ _ l H). Qed.

Lemma lease_ok (name : string) (rand : Z) (ks : keyspace) (lease_secs : Z)
    (timeout : option Z) (arrival : option bytes) (l d : list bytes) (x : bytes) :
  let w := __init__ name rand ks in
  0 < lease_secs ->
  list_at ks (_main_q_key (self w)) = Some (l ++ [x]) ->
  list_at ks (_processing_q_key (self w)) = Some d ->
  lease lease_secs false timeout arrival w
    = (Ret (Some x), __init__ name rand (leased (self w) lease_secs x l d ks)).
Proof.
  intros w Hsecs Hm Hp. subst w.
  destruct (keys_distinct name rand ks) as (Hmp & _). simpl in *.
  wq_unfold. rewrite (RPOPLPUSH_ok _ _ _ l d x Hmp Hm Hp). simpl.
  unfold leased. simpl. destruct (truthy x); [| reflexivity].
  simpl. unfold SETEX.
  destruct (Z.leb_spec lease_secs 0) as [? | _]; [lia | reflexivity].
Qed.

Lemma leased_lists (name : string) (rand : Z) (ks : keyspace) (lease_secs : Z)
    (l d : list bytes) (x : bytes) :
  let q := self (__init__ name rand ks) in
  list_at (leased q lease_secs x l d ks) (_main_q_key q) = Some l /\
  list_at (leased q lease_secs x l d ks) (_processing_q_key q) = Some (x :: d).
Proof.
  intros q.
  destruct (keys_distinct name rand ks) as (Hmp & _).
  destruct (lease_key_distinct name rand ks (_itemkey x)) as (Hlm & Hlp & _).
  subst q. unfold leased. simpl in *.
  destruct (truthy x);
    rewrite ?(list_at_insert_ne _ _ _ _ Hlm), ?(list_at_insert_ne _ _ _ _ Hlp);
    by rewrite list_at_insert_eq, list_at_insert_ne, list_at_store_eq.
Qed.

Lemma put_all_ok (name : string) (rand : Z) (items : list bytes) :
  forall (ks : keyspace) (l : list bytes),
  list_at ks name = Some l ->
  exists ks',
    put_all items (__init__ name rand ks) = (Ret tt, __init__ name rand ks') /\
    list_at ks' name = Some (rev items ++ l) /\
    (forall k, k <> name -> ks' !! k = ks !! k).
Proof.
  induction items as [| x items IH]; intros ks l Hl.
  - exists ks. by repeat split.
  - destruct (IH (<[name := Lst (x :: l)]> ks) (x :: l)) as (ks' & E & Hm & Hfr);
      [apply list_at_insert_eq |].
    exists ks'. cbn [put_all]. rewrite bind_run, (put_ok name rand ks x l Hl), E.
    repeat split.
    + rewrite Hm. simpl. by rewrite <- app_assoc.
    + intros k Hk. rewrite (Hfr k Hk). by rewrite lookup_insert_ne.
Qed.

Lemma lease_n_fifo (name : string) (rand : Z) (items : list bytes) :
  forall (ks : keyspace) (d : list bytes),
  list_at ks name = Some (rev items) ->
  list_at ks (name +:+ ":processing") = Some d ->
  fst (lease_n (length items) (__init__ name rand ks)) = Ret (map Some items).
Proof.
  induction items as [| x items IH]; intros ks d Hm Hp; [reflexivity |].
  cbn [length lease_n]. rewrite bind_run.
  rewrite (lease_ok name rand ks 5 None None (rev items) d x) by done.
  destruct (leased_lists name rand ks 5 (rev items) d x) as [Hm' Hp'].
  rewrite bind_run.
  specialize (IH _ _ Hm' Hp').
  destruct (lease_n (length items) _) as [[rs | e |] w']; simpl in *;
    congruence.
Qed.

(** C6: on a queue that [empty()] reports empty, [put(item)] followed by
    [lease(block=False)] returns exactly [item]; and after any sequence of
    puts, as many leases return the items in the order they were put
    (first put, first leased), each item once per put, duplicates
    included. *)
Theorem put_then_lease_fifo (name : string) (rand : Z) (ks : keyspace) :
  let w := __init__ name rand ks in
  fst (empty w) = Ret true ->
  (forall item : bytes,
     fst ((put item;; lease 5 false None None) w) = Ret (Some item)) /\
  (forall items : list bytes,
     fst ((put_all items;; lease_n (length items)) w) = Ret (map Some items)).
Proof.
  intros w Hempty. subst w.
  destruct (empty_true_lists name rand ks Hempty) as [Hm Hp].
  assert (Hne : name +:+ ":processing" <> name)
    by (intros E; symmetry in E; revert E; apply append_ne_self).
  split.
  - intros item. rewrite bind_run, (put_ok name rand ks item [] Hm).
    rewrite (lease_ok name rand _ 5 None None [] [] item);
      [reflexivity | lia | apply list_at_insert_eq |].
    simpl. by rewrite list_at_insert_ne.
  - intros items.
    destruct (put_all_ok name rand items ks [] Hm) as (ks' & E & Hm' & Hfr).
    rewrite bind_run, E. rewrite app_nil_r in Hm'.
    apply (lease_n_fifo name rand items ks' []); [exact Hm' |].
    unfold list_at in *. by rewrite (Hfr _ Hne).
Qed.

Lemma put_then_lease_fifo_witness :
  let w := __init__ "jobs" 7 ∅ in
  let a := [x61%byte] in
  let b := [x62%byte] in
  fst ((put a;; lease 5 false None None) w) = Ret (Some a) /\
  fst ((put_all [a; b; a];; lease_n 3) w) = Ret [Some a; Some b; Some a].
Proof.
  intros w a b.
  destruct (put_then_lease_fifo "jobs" 7 ∅) as [H1 H2]; [reflexivity |].
  split; [apply H1 | apply (H2 [a; b; a])].
Defined.

(** ** The lease record *)

Lemma string_length_append (a b : string) :
  String.length (a +:+ b) = (String.length a + String.length b)%nat.
Proof.
  induction a as [| c a IH]; [reflexivity |].
  change (S (String.length (a +:+ b)) = S (String.length a + String.length b)).
  by rewrite IH.
Qed.

Lemma render_length (n : nat) (x : Z) : String.length (Hex.render n x) = n.
Proof.
  revert x. induction n as [| n IH]; intros x; [reflexivity |].
  cbn [Hex.render]. rewrite string_length_append, IH. simpl. lia.
Qed.

(** The content hash is a string of 56 characters whatever the item. *)
Lemma itemkey_length (item : bytes) : String.length (_itemkey item) = 56%nat.
Proof.
  unfold _itemkey, SHA224.hexdigest.
  rewrite !string_length_append, !render_length. reflexivity.
Qed.

Lemma all_digits_append (a b : string) :
  Hex.all_digits a = true -> Hex.all_digits b = true ->
  Hex.all_digits (a +:+ b) = true.
Proof.
  intros Ha Hb. induction a as [| c a IH]; [exact Hb |].
  change (Hex.is_digit c && Hex.all_digits (a +:+ b) = true).
  simpl in Ha. apply andb_prop in Ha as [Hc Ha]. by rewrite Hc, IH.
Qed.

Lemma digit_is_digit (d : Z) : 0 <= d < 16 -> Hex.is_digit (Hex.digit d) = true.
Proof.
  intros H.
  assert (E : d = 0 \/ d = 1 \/ d = 2 \/ d = 3 \/ d = 4 \/ d = 5 \/ d = 6
              \/ d = 7 \/ d = 8 \/ d = 9 \/ d = 10 \/ d = 11 \/ d = 12
              \/ d = 13 \/ d = 14 \/ d = 15) by lia.
  repeat (destruct E as [-> | E]; [reflexivity |]). by subst.
Qed.

Lemma render_digits (n : nat) (x : Z) : Hex.all_digits (Hex.render n x) = true.
Proof.
  revert x. induction n as [| n IH]; intros x; [reflexivity |].
  cbn [Hex.render]. apply all_digits_append; [apply IH |].
  simpl. rewrite digit_is_digit; [reflexivity |].
  apply Z.mod_pos_bound. lia.
Qed.

(** The content hash is written with the digits [0-9a-f] only. *)
Lemma itemkey_hex (item : bytes) : Hex.all_digits (_itemkey item) = true.
Proof.
  unfold _itemkey, SHA224.hexdigest.
  repeat (apply all_digits_append; [apply render_digits |]).
  apply render_digits.
Qed.

(** The two list moves touch their source and their destination only. *)
Lemma RPOPLPUSH_frame (src dst k : string) (ks : keyspace) :
  k <> src -> k <> dst -> snd (RPOPLPUSH src dst ks) !! k = ks !! k.
Proof.
  intros Hs Hd. unfold RPOPLPUSH.
  destruct (list_at ks src) as [l |]; [| done].
  destruct (last l); [| done].
  destruct (list_at ks dst); [| done].
  simpl. by rewrite lookup_insert_ne, lookup_store_ne.
Qed.

Lemma BRPOPLPUSH_frame (src dst k : string) (timeout : option Z)
    (arrival : option bytes) (ks : keyspace) :
  k <> src -> k <> dst ->
  snd (BRPOPLPUSH src dst timeout arrival ks) !! k = ks !! k.
Proof.
  intros Hs Hd. unfold BRPOPLPUSH.
  destruct (default 0 timeout <? 0); [done |].
  destruct (list_at ks src) as [[| y l] |]; [| by apply RPOPLPUSH_frame | done].
  destruct arrival as [x |].
  - rewrite RPOPLPUSH_frame by done. by rewrite lookup_insert_ne.
  - by destruct (default 0 timeout =? 0).
Qed.

(** X7: a lease, blocking or not, that returns a non-empty item [x] has written
    the record [prefix + sha224(x) -> session id] with [lease_secs] as time
    to live, and has left every key but this one and the two lists as it
    was. *)
Lemma lease_writes_record (name : string) (rand : Z) (ks : keyspace)
    (lease_secs : Z) (block : bool) (timeout : option Z)
    (arrival : option bytes) (x : bytes) (w' : world) :
  let w := __init__ name rand ks in
  let q := self w in
  lease lease_secs block timeout arrival w = (Ret (Some x), w') ->
  x <> [] ->
  db w' !! (_lease_key_prefix q +:+ SHA224.hexdigest x)
    = Some (Str (list_byte_of_string (_session q)) (Some lease_secs)) /\
  (forall k : string,
     k <> _lease_key_prefix q +:+ SHA224.hexdigest x ->
     k <> _main_q_key q -> k <> _processing_q_key q ->
     db w' !! k = ks !! k).
Proof.
  intros w q. subst w q. simpl. wq_unfold.
  set (c := if block then _ else _).
  assert (Hfr : forall k, k <> name -> k <> name +:+ ":processing" ->
                  db (snd (c (__init__ name rand ks))) !! k = ks !! k).
  { intros k H1 H2. subst c.
    destruct block; simpl;
      [by apply BRPOPLPUSH_frame | by apply RPOPLPUSH_frame]. }
  destruct (c (__init__ name rand ks)) as [[[i |] | e |] w1]; simpl in *;
    try discriminate.
  destruct i as [| b i]; simpl.
  - intros [= <- _] Hx. done.
  - unfold SETEX. destruct (lease_secs <=? 0); simpl; [discriminate |].
    intros [= <- <-] _. simpl. split.
    + by rewrite lookup_insert_eq.
    + intros k H1 H2 H3. rewrite lookup_insert_ne by done. by apply Hfr.
Qed.

(** C4 (the code at the failing input): an empty byte string is a false
    value in Python, so the [if item:] test skips the lease record.  With
    [b''] alone in the pending list, [lease] moves it to the processing
    list and returns it, and the keyspace holds no lease record
    afterwards. *)
Theorem lease_empty_item_writes_no_record :
  let w := __init__ "jobs" 0 {[ "jobs" := Lst [[]] ]} in
  let r := lease 5 false None None w in
  fst r = Ret (Some []) /\
  db (snd r) = {[ "jobs:processing" := Lst [[]] ]} /\
  db (snd r) !! ("jobs:leased_by_session:" +:+ _itemkey []) = None.
Proof. repeat split; vm_compute; reflexivity. Qed.

(** ** [complete] *)

Lemma DEL_two (k1 k2 : string) (ks : keyspace) :
  snd (DEL [k1; k2] ks) = delete k2 (delete k1 ks).
Proof.
  unfold DEL, del1. simpl.
  destruct (ks !! k1) eqn:E1; simpl.
  - destruct (delete k1 ks !! k2) eqn:E2; simpl;
      [done | symmetry; by apply delete_id].
  - rewrite (delete_id ks k1 E1).
    destruct (ks !! k2) eqn:E2; simpl; [done | symmetry; by apply delete_id].
Qed.

(** The keyspace after [complete(value)]: [LREM] on the processing list,
    then [DEL] of the two names it is given. *)
Lemma complete_db (name : string) (rand : Z) (ks : keyspace) (value : bytes) :
  let w := __init__ name rand ks in
  let q := self w in
  match list_at ks (_processing_q_key q) with
  | None => complete value w = (Raise WRONGTYPE, w)
  | Some _ =>
      complete value w =
        (Ret tt,
         __init__ name rand
           (delete (_session q)
              (delete (_lease_key_prefix q +:+ _itemkey value)
                 (snd (LREM (_processing_q_key q) 0 value ks)))))
  end.
Proof.
  intros w q. subst w q. simpl.
  destruct (list_at ks (name +:+ ":processing")) as [lp |] eqn:Hp.
  - wq_unfold. unfold LREM at 1. rewrite Hp. simpl.
    rewrite <- DEL_two. reflexivity.
  - wq_unfold. by rewrite (LREM_wrongtype _ _ _ _ Hp).
Qed.

(** X20: whatever its outcome, [complete] leaves as it was every key other
    than the processing list, the lease key of the item and the key named
    by the session id. *)
Lemma complete_frame (name : string) (rand : Z) (ks : keyspace) (value : bytes)
    (k : string) :
  let w := __init__ name rand ks in
  let q := self w in
  k <> _processing_q_key q ->
  k <> _lease_key_prefix q +:+ _itemkey value ->
  k <> _session q ->
  db (after (complete value) w) !! k = ks !! k.
Proof.
  intros w q H1 H2 H3. unfold after.
  pose proof (complete_db name rand ks value) as H.
  subst w q. simpl in *.
  destruct (list_at ks (name +:+ ":processing")) as [lp |] eqn:Hp;
    rewrite H; [| done].
  simpl. rewrite !lookup_delete_ne by done.
  unfold LREM. rewrite Hp. simpl.
  destruct (_ =? 0); [done |]. by rewrite lookup_store_ne.
Qed.

(** X21: from every state, calling [complete] a second time with the same
    item changes nothing more: the state after two calls is the state after
    one. *)
Lemma complete_twice (name : string) (rand : Z) (ks : keyspace) (value : bytes) :
  let w := __init__ name rand ks in
  after (complete value) (after (complete value) w) = after (complete value) w.
Proof.
  intros w. unfold after.
  pose proof (complete_db name rand ks value) as H.
  subst w. simpl in *.
  destruct (list_at ks (name +:+ ":processing")) as [lp |] eqn:Hp;
    rewrite H; simpl; [| by rewrite H].
  set (ks1 := delete _ (delete _ _)).
  pose proof (complete_db name rand ks1 value) as H1. cbv zeta in H1.
  assert (Hl : exists lp', list_at ks1 (name +:+ ":processing") = Some lp'
                           /\ value ∉ lp').
  { subst ks1. unfold LREM. rewrite Hp. simpl.
    unfold list_at.
    destruct (decide (UUID.str (UUID.uuid4 rand) = name +:+ ":processing")) as [-> | Hs];
      [rewrite lookup_delete_eq; exists []; split; [done | apply not_elem_of_nil] |].
    rewrite lookup_delete_ne by done.
    destruct (lease_key_distinct name rand ks (_itemkey value)) as (_ & Hlp & _).
    simpl in Hlp. rewrite lookup_delete_ne by done.
    destruct (Z.eqb_spec (Z.of_nat (length lp - length (lrem_list 0 value lp))) 0)
      as [Hz | Hnz].
    - assert (value ∉ lp).
      { intros Hin. pose proof (lrem_all_present value lp Hin). lia. }
      fold (list_at ks (name +:+ ":processing")). rewrite Hp. by exists lp.
    - fold (list_at (store_list (name +:+ ":processing") (lrem_list 0 value lp) ks)
                    (name +:+ ":processing")).
      rewrite list_at_store_eq. eexists. split; [done |].
      unfold lrem_list. simpl. rewrite list_elem_of_filter. tauto. }
  destruct Hl as (lp' & Hlp' & Hnot). simpl in H1. rewrite Hlp' in H1.
  rewrite H1. f_equal.
  rewrite (LREM_all_absent _ _ _ _ Hlp' Hnot). simpl. f_equal.
  subst ks1. apply map_eq. intros i.
  rewrite !lookup_delete. by repeat case_decide.
Qed.

(** C5 (the code at the failing input): [complete] passes two names to
    [DEL], the lease key and the session id, so a key whose name is the
    session id is deleted as well although it is not the lease key of the
    item. *)
Theorem complete_deletes_session_named_key :
  let sid := "00000000-0000-4000-8000-000000000000" in
  let ks : keyspace := {[ sid := Str [x01%byte] None ]} in
  let w := __init__ "jobs" 0 ks in
  let item := [x61%byte] in
  fst (sessionID w) = Ret sid /\
  sid <> _lease_key_prefix (self w) +:+ _itemkey item /\
  ks !! sid = Some (Str [x01%byte] None) /\
  fst (complete item w) = Ret tt /\
  db (snd (complete item w)) !! sid = None.
Proof.
  repeat split; try (vm_compute; reflexivity).
  apply (bool_decide_unpack _). vm_compute. exact I.
Qed.

(** C10 (the code at the failing input): the item is not in the processing
    list and has no lease key, yet [complete] changes the store: the list
    kept under the name of the session id is gone. *)
Theorem complete_absent_item_changes_store :
  let sid := "ffffffff-ffff-4fff-bfff-ffffffffffff" in
  let ks : keyspace := {[ sid := Lst [[x62%byte]] ]} in
  let w := __init__ "jobs" (2 ^ 128 - 1) ks in
  let item := [x61%byte] in
  list_at ks (_processing_q_key (self w)) = Some [] /\
  ks !! (_lease_key_prefix (self w) +:+ _itemkey item) = None /\
  fst (complete item w) = Ret tt /\
  db (snd (complete item w)) = ∅ /\
  db (snd (complete item w)) <> ks.
Proof.
  repeat split; try (vm_compute; reflexivity).
  apply (bool_decide_unpack _). vm_compute. exact I.
Qed.

(** ** The session id *)

Lemma no_new_str_refl (s : bytes) (ks : keyspace) : no_new_str s ks ks.
Proof. intros k v ttl H. by left. Qed.

Lemma no_new_str_trans (s : bytes) (ks1 ks2 ks3 : keyspace) :
  no_new_str s ks1 ks2 -> no_new_str s ks2 ks3 -> no_new_str s ks1 ks3.
Proof.
  intros H12 H23 k v ttl H.
  destruct (H23 k v ttl H) as [H' | ->]; [by apply H12 | by right].
Qed.

Lemma no_new_str_insert_list (s : bytes) (ks : keyspace) (k : string)
    (l : list bytes) : no_new_str s ks (<[k := Lst l]> ks).
Proof.
  intros k' v ttl. rewrite lookup_insert. case_decide; [done | by left].
Qed.

Lemma no_new_str_delete (s : bytes) (ks : keyspace) (k : string) :
  no_new_str s ks (delete k ks).
Proof.
  intros k' v ttl. rewrite lookup_delete. case_decide; [done | by left].
Qed.

Lemma no_new_str_store (s : bytes) (ks : keyspace) (k : string) (l : list bytes) :
  no_new_str s ks (store_list k l ks).
Proof.
  destruct l; [apply no_new_str_delete | apply no_new_str_insert_list].
Qed.

Lemma LLEN_list_cmd (k : string) : list_cmd (LLEN k).
Proof.
  intros s ks. unfold LLEN. destruct (list_at ks k); apply no_new_str_refl.
Qed.

Lemma LPUSH_list_cmd (k : string) (v : bytes) : list_cmd (LPUSH k v).
Proof.
  intros s ks. unfold LPUSH.
  destruct (list_at ks k); [apply no_new_str_insert_list | apply no_new_str_refl].
Qed.

Lemma RPOPLPUSH_list_cmd (src dst : string) : list_cmd (RPOPLPUSH src dst).
Proof.
  intros s ks. unfold RPOPLPUSH.
  destruct (list_at ks src) as [l |]; [| apply no_new_str_refl].
  destruct (last l); [| apply no_new_str_refl].
  destruct (list_at ks dst); [| apply no_new_str_refl].
  simpl. eapply no_new_str_trans;
    [apply no_new_str_store | apply no_new_str_insert_list].
Qed.

Lemma BRPOPLPUSH_list_cmd (src dst : string) (timeout : option Z)
    (arrival : option bytes) : list_cmd (BRPOPLPUSH src dst timeout arrival).
Proof.
  intros s ks. unfold BRPOPLPUSH.
  destruct (default 0 timeout <? 0); [apply no_new_str_refl |].
  destruct (list_at ks src) as [[| x l] |];
    [| apply RPOPLPUSH_list_cmd | apply no_new_str_refl].
  destruct arrival as [x |].
  - eapply no_new_str_trans;
      [apply no_new_str_insert_list | apply RPOPLPUSH_list_cmd].
  - destruct (default 0 timeout =? 0); apply no_new_str_refl.
Qed.

Lemma LREM_list_cmd (k : string) (count : Z) (v : bytes) : list_cmd (LREM k count v).
Proof.
  intros s ks. unfold LREM.
  destruct (list_at ks k) as [l |]; [| apply no_new_str_refl].
  simpl. destruct (_ =? 0); [apply no_new_str_refl | apply no_new_str_store].
Qed.

Lemma DEL_list_cmd (names : list string) : list_cmd (DEL names).
Proof.
  intros s ks. unfold DEL. simpl.
  assert (H : forall n, no_new_str s ks (snd (fold_left del1 names (n, ks)))).
  { revert ks. induction names as [| k names IH]; intros ks n;
      [apply no_new_str_refl |].
    simpl. unfold del1 at 2. simpl.
    destruct (ks !! k); [| apply IH].
    eapply no_new_str_trans; [apply no_new_str_delete | apply IH]. }
  apply H.
Qed.

(** [SETEX] writes one string record, with the value it is given. *)
Lemma SETEX_no_new_str (k : string) (seconds : Z) (v : bytes) (ks : keyspace) :
  no_new_str v ks (snd (SETEX k seconds v ks)).
Proof.
  unfold SETEX. destruct (seconds <=? 0); [apply no_new_str_refl |].
  intros k' v' ttl. simpl. rewrite lookup_insert.
  case_decide; [intros [= <- _]; by right | by left].
Qed.

Lemma keeps_ret (q : attrs) {A} (a : A) : keeps q (mret a : M A).
Proof. intros w Hw. split; [done | apply no_new_str_refl]. Qed.

Lemma keeps_raise (q : attrs) {A} (e : exn) : keeps q (raise e : M A).
Proof. intros w Hw. split; [done | apply no_new_str_refl]. Qed.

Lemma keeps_bind (q : attrs) {A B} (m : M A) (f : A -> M B) :
  keeps q m -> (forall a, keeps q (f a)) -> keeps q (m ≫= f).
Proof.
  intros Hm Hf w Hw. rewrite bind_run.
  destruct (Hm w Hw) as [Hs Hn].
  destruct (m w) as [[a | e |] w1]; simpl in *; [| done | done].
  destruct (Hf a w1 Hs) as [Hs' Hn']. split; [done |].
  by eapply no_new_str_trans.
Qed.

Lemma keeps_get_self (q : attrs) {B} (f : attrs -> M B) :
  keeps q (f q) -> keeps q (get_self ≫= f).
Proof.
  intros Hf w Hw. rewrite bind_run. unfold get_self. rewrite Hw. by apply Hf.
Qed.

Lemma keeps_list_cmd (q : attrs) {A} (c : cmd A) : list_cmd c -> keeps q (on_db c).
Proof. intros Hc w Hw. split; [done | apply Hc]. Qed.

Lemma keeps_SETEX (q : attrs) (k : string) (seconds : Z) :
  keeps q (on_db (SETEX k seconds (list_byte_of_string (_session q)))).
Proof. intros w Hw. split; [done | apply SETEX_no_new_str]. Qed.

Create HintDb keeps.

#[local] Hint Resolve keeps_ret keeps_raise keeps_list_cmd keeps_SETEX
  LLEN_list_cmd LPUSH_list_cmd RPOPLPUSH_list_cmd BRPOPLPUSH_list_cmd
  LREM_list_cmd DEL_list_cmd : keeps.

Ltac keeps_step :=
  first [ apply keeps_get_self
        | apply keeps_bind; [| intros ?]
        | progress eauto with keeps ].

Lemma keeps_sessionID (q : attrs) : keeps q sessionID.
Proof. unfold sessionID. repeat keeps_step. Qed.

Lemma keeps_empty (q : attrs) : keeps q empty.
Proof.
  unfold empty, _main_qsize, _processing_qsize.
  apply keeps_bind; [repeat keeps_step | intros n].
  destruct (n =? 0); repeat keeps_step.
Qed.

Lemma keeps_put (q : attrs) (item : bytes) : keeps q (put item).
Proof. unfold put. repeat keeps_step. Qed.

Lemma keeps_lease (q : attrs) (lease_secs : Z) (block : bool)
    (timeout : option Z) (arrival : option bytes) :
  keeps q (lease lease_secs block timeout arrival).
Proof.
  unfold lease. apply keeps_get_self.
  apply keeps_bind; [destruct block; repeat keeps_step | intros [i |]];
    [destruct (truthy i) |]; repeat keeps_step.
Qed.

Lemma keeps_error (q : attrs) (value : bytes) (msg : option string) :
  keeps q (error value msg).
Proof.
  unfold error. apply keeps_get_self. cbv zeta.
  apply keeps_bind; [repeat keeps_step | intros n].
  destruct (n =? 0); [repeat keeps_step |].
  apply keeps_bind; [repeat keeps_step | intros n1].
  apply keeps_bind; [repeat keeps_step | intros n2].
  destruct (n1 =? n2); repeat keeps_step.
Qed.

Lemma keeps_complete (q : attrs) (value : bytes) : keeps q (complete value).
Proof. unfold complete. repeat keeps_step. Qed.

Lemma exec_keeps (c : call) (w : world) :
  self (exec c w) = self w /\
  no_new_str (list_byte_of_string (_session (self w))) (db w) (db (exec c w)).
Proof.
  destruct c; simpl; unfold after;
    [ apply keeps_put | apply keeps_lease | apply keeps_error
    | apply keeps_complete | apply keeps_empty | apply keeps_sessionID ];
    reflexivity.
Qed.

Lemma exec_all_keeps (cs : list call) (w : world) :
  self (exec_all cs w) = self w /\
  no_new_str (list_byte_of_string (_session (self w))) (db w) (db (exec_all cs w)).
Proof.
  revert w. induction cs as [| c cs IH]; intros w.
  - split; [done | apply no_new_str_refl].
  - destruct (exec_keeps c w) as [Hs Hn].
    destruct (IH (exec c w)) as [Hs' Hn'].
    change (exec_all (c :: cs) w) with (exec_all cs (exec c w)).
    split; [congruence |].
    rewrite Hs in Hn'. by eapply no_new_str_trans.
Qed.

(** C9: the session id is the one [uuid4] value drawn in [__init__]; after
    any sequence of [put], [lease], [error], [complete], [empty] and
    [sessionID] calls the object is as constructed and [sessionID()] returns
    that same value; and every string record found in the store afterwards
    that was not already there holds the session id as its value, so every
    lease record this instance wrote carries it. *)
Theorem session_id_fixed (name : string) (rand : Z) (ks : keyspace)
    (cs : list call) :
  let w := __init__ name rand ks in
  let w' := exec_all cs w in
  let sid := UUID.str (UUID.uuid4 rand) in
  fst (sessionID w) = Ret sid /\
  self w' = self w /\
  fst (sessionID w') = Ret sid /\
  (forall (k : string) (v : bytes) (ttl : option Z),
     db w' !! k = Some (Str v ttl) ->
     ks !! k = Some (Str v ttl) \/ v = list_byte_of_string sid).
Proof.
  intros w w' sid.
  destruct (exec_all_keeps cs w) as [Hs Hn]. fold w' in Hs, Hn.
  repeat split; [exact Hs | | exact Hn].
  unfold sessionID. rewrite bind_run. unfold get_self. by rewrite Hs.
Qed.

Lemma session_id_fixed_witness :
  let a := [x61%byte] in
  let cs := [Put a; Lease 5 false None None; Complete a; Put a;
             Lease 9 true None None; Error a None] in
  let w := __init__ "jobs" 7 ∅ in
  let w' := exec_all cs w in
  let sid := "00000000-0000-4000-8000-000000000007" in
  let v := list_byte_of_string sid in
  db w' !! ("jobs:leased_by_session:" +:+ _itemkey a) = Some (Str v (Some 9)) /\
  fst (sessionID w') = Ret sid /\
  ((∅ : keyspace) !! ("jobs:leased_by_session:" +:+ _itemkey a)
     = Some (Str v (Some 9)) \/ v = list_byte_of_string sid).
Proof.
  intros a cs w w' sid v.
  assert (E : db w' !! ("jobs:leased_by_session:" +:+ _itemkey a)
              = Some (Str v (Some 9))) by (vm_compute; reflexivity).
  destruct (session_id_fixed "jobs" 7 ∅ cs) as (_ & _ & H3 & H4).
  split; [exact E |]. split; [exact H3 |]. exact (H4 _ _ _ E).
Defined.


(** ** The rate limiter *)

Import RateLimit.

Section LimiterFacts.

Variable clock : nat -> Z.

Lemma lbind_run {A B} (m : L A) (f : A -> L B) (s : lstate) :
  (m ≫= f) s =
    match m s with
    | (Ret a, s') => f a s'
    | (Raise e, s') => (Raise e, s')
    | (Hang, s') => (Hang, s')
    end.
Proof. reflexivity. Qed.

Ltac l_unfold :=
  unfold _limit_rate, _get_timestamp, get, incr, expire, sleep, hang, lift,
    mbind, L_bind, mret, L_ret; simpl.

(** The limiter lets a first call of a bucket through, counts it and arms
    the expiry. *)
Lemma wait_fresh (fuel : nat) (n : Z) (s : lstate) :
  counts s !! clock (reads s) = None ->
  wait_for_rate clock fuel (Some n) s =
    (Ret tt,
     LState (inner s) (<[clock (reads s) := 1]> (counts s))
            (armed s ++ [clock (reads s)]) (S (reads s)) (sleeps s)).
Proof.
  intros H. destruct s as [w c a r sl]. simpl in H.
  destruct fuel; cbn [wait_for_rate]; l_unfold; rewrite H; simpl;
    rewrite H; reflexivity.
Qed.

(** It lets a later call through while the count is below the limit, and
    counts it. *)
Lemma wait_below (fuel : nat) (n c : Z) (s : lstate) :
  counts s !! clock (reads s) = Some c ->
  c < n ->
  wait_for_rate clock fuel (Some n) s =
    (Ret tt,
     LState (inner s) (<[clock (reads s) := c + 1]> (counts s))
            (armed s) (S (reads s)) (sleeps s)).
Proof.
  intros H Hc. destruct s as [w cs a r sl]. simpl in H.
  destruct fuel; cbn [wait_for_rate]; l_unfold; rewrite H;
    (destruct (Z.leb_spec n c) as [? | _]; [lia |]);
    simpl; rewrite H; reflexivity.
Qed.

(** At the limit it denies: one sleep, and the next try. *)
Lemma wait_denied (fuel : nat) (n c : Z) (s : lstate) :
  counts s !! clock (reads s) = Some c ->
  n <= c ->
  wait_for_rate clock (S fuel) (Some n) s =
    wait_for_rate clock fuel (Some n)
      (LState (inner s) (counts s) (armed s) (S (reads s)) (S (sleeps s))).
Proof.
  intros H Hc. destruct s as [w cs a r sl]. simpl in H.
  cbn [wait_for_rate]. rewrite lbind_run.
  replace (_limit_rate clock (Some n) (LState w cs a r sl))
    with (@Ret bool false, LState w cs a (S r) sl).
  - reflexivity.
  - l_unfold. rewrite H. destruct (Z.leb_spec n c) as [_ | ?]; [done | lia].
Qed.

Lemma wait_no_limit (fuel : nat) (s : lstate) :
  wait_for_rate clock fuel None s = (Ret tt, s).
Proof. destruct fuel; reflexivity. Qed.

(** Once the limiter has let the call through, the call is the plain
    [lease] on the queue state; the limiter's own state stays as the wait
    left it. *)
Lemma lease_limited_after_wait (fuel : nat) (a : lease_args) (limit : option Z)
    (s s1 : lstate) :
  wait_for_rate clock fuel limit s = (Ret tt, s1) ->
  let r := lease_limited clock fuel a limit s in
  (fst r, inner (snd r)) = plain_lease a (inner s1) /\
  counts (snd r) = counts s1 /\ armed (snd r) = armed s1 /\
  reads (snd r) = reads s1 /\ sleeps (snd r) = sleeps s1.
Proof.
  intros H r. subst r. unfold lease_limited. rewrite lbind_run, H.
  unfold lift. simpl. by destruct (plain_lease a (inner s1)).
Qed.

(** Denied [j + 1] times in bucket [ts], then let through in the fresh
    bucket [ts']. *)
Lemma wait_rollover (n c ts ts' : Z) (j : nat) :
  forall (fuel : nat) (s : lstate),
  counts s !! ts = Some c -> n <= c ->
  counts s !! ts' = None ->
  (forall i : nat, (i <= j)%nat -> clock (reads s + i) = ts) ->
  clock (reads s + j + 1) = ts' ->
  (j < fuel)%nat ->
  wait_for_rate clock fuel (Some n) s =
    (Ret tt,
     LState (inner s) (<[ts' := 1]> (counts s)) (armed s ++ [ts'])
            (reads s + j + 2) (sleeps s + j + 1)).
Proof.
  induction j as [| j IH]; intros fuel s Hc Hn Hf Hts Hts' Hfuel;
    (destruct fuel as [| fuel]; [lia |]);
    (assert (H0 : clock (reads s) = ts)
       by (rewrite <- (Hts 0%nat) by lia; f_equal; lia)).
  - rewrite (wait_denied fuel n c s); [| by rewrite H0 | done].
    assert (H1 : clock (S (reads s)) = ts')
      by (rewrite <- Hts'; f_equal; lia).
    rewrite wait_fresh; cbn [inner counts armed reads sleeps]; rewrite H1.
    + f_equal. f_equal; lia.
    + done.
  - rewrite (wait_denied fuel n c s); [| by rewrite H0 | done].
    rewrite (IH fuel); cbn [inner counts armed reads sleeps]; try done; try lia.
    + f_equal. f_equal; lia.
    + intros i Hi. rewrite <- (Hts (S i)) by lia. f_equal. lia.
    + rewrite <- Hts'. f_equal. lia.
Qed.

(** The limiter state after [length l] calls made in bucket [ts], when the
    bucket was fresh and the limit is not exceeded: no sleep, one clock
    reading per call, the counter at the number of calls and the expiry
    armed once. *)
Lemma calls_in_bucket (fuel : nat) (n ts : Z) (s0 : lstate) (l : list lease_args) :
  counts s0 !! ts = None ->
  Z.of_nat (length l) <= n ->
  (forall i : nat, (i < length l)%nat -> clock (reads s0 + i) = ts) ->
  let s := calls clock fuel (Some n) l s0 in
  reads s = (reads s0 + length l)%nat /\
  sleeps s = sleeps s0 /\
  counts s = match l with
             | [] => counts s0
             | _ :: _ => <[ts := Z.of_nat (length l)]> (counts s0)
             end /\
  armed s = armed s0 ++ match l with [] => [] | _ :: _ => [ts] end.
Proof.
  induction l as [| a l IH] using rev_ind; intros Hfresh Hlen Hclock s.
  - subst s. simpl. rewrite Nat.add_0_r, app_nil_r. done.
  - rewrite length_app in Hlen, Hclock. simpl in Hlen, Hclock.
    destruct IH as (Hr & Hs & Hc & Ha); [done | lia | intros i Hi; apply Hclock; lia |].
    subst s. unfold calls in *. rewrite fold_left_app. simpl.
    set (s := fold_left _ l s0) in *.
    assert (Hts : clock (reads s) = ts) by (rewrite Hr; apply Hclock; lia).
    assert (E : exists s1, wait_for_rate clock fuel (Some n) s = (Ret tt, s1) /\
              reads s1 = S (reads s) /\ sleeps s1 = sleeps s /\
              counts s1 = <[ts := Z.of_nat (length l) + 1]> (counts s0) /\
              armed s1 = armed s0 ++ [ts]).
    { destruct l as [| b l'].
      - eexists. split; [apply wait_fresh; by rewrite Hts, Hc |].
        simpl. rewrite Hts, Hc, Ha, app_nil_r. done.
      - eexists. split.
        + apply (wait_below fuel n (Z.of_nat (length (b :: l')))).
          * by rewrite Hts, Hc, lookup_insert_eq.
          * lia.
        + simpl. rewrite Hts, Hc, Ha, insert_insert_eq. done. }
    destruct E as (s1 & Hw & Hr1 & Hs1 & Hc1 & Ha1).
    destruct (lease_limited_after_wait fuel a (Some n) s s1 Hw)
      as (_ & Hc2 & Ha2 & Hr2 & Hs2).
    rewrite Hr2, Hs2, Hc2, Ha2, Hr1, Hs1, Hc1, Ha1, Hr, Hs, length_app. simpl.
    repeat split; [lia | | ].
    + destruct l; simpl; f_equal; lia.
    + by destruct l.
Qed.

(** C1: with a limit [n > 0] and a fresh bucket [ts], each of the first
    [n] calls of [lease] made in that bucket goes through without a sleep
    and is the plain [lease] on the queue; the expiry of the counter is
    armed by the first of them and by no other, whatever their number.  The
    call after them sleeps and tries again ([j + 1] sleeps, as long as the
    clock stays in [ts]) until the clock shows another bucket [ts'], is let
    through there, and is again the plain [lease] on the queue: its result
    is not a no-item result made up by the limiter; the expiry is armed
    once more, for [ts'].  Without a limit the call is the plain [lease] and
    the limiter state is neither read nor written. *)
Theorem lease_rate_limit (n ts ts' : Z) (j fuel : nat) (s0 : lstate)
    (batch : list lease_args) (late : lease_args) :
  0 < n ->
  Z.of_nat (length batch) = n ->
  counts s0 !! ts = None ->
  counts s0 !! ts' = None ->
  ts' <> ts ->
  (forall i : nat, (i <= length batch + j)%nat -> clock (reads s0 + i) = ts) ->
  clock (reads s0 + length batch + j + 1) = ts' ->
  (j < fuel)%nat ->
  (forall (before : list lease_args) (a : lease_args) (rest : list lease_args),
     batch = before ++ a :: rest ->
     let s := calls clock fuel (Some n) before s0 in
     let r := lease_limited clock fuel a (Some n) s in
     (fst r, inner (snd r)) = plain_lease a (inner s) /\
     sleeps (snd r) = sleeps s0 /\
     counts (snd r) !! ts = Some (Z.of_nat (S (length before))) /\
     armed (snd r) = armed s0 ++ [ts]) /\
  (let s := calls clock fuel (Some n) batch s0 in
   let r := lease_limited clock fuel late (Some n) s in
   (fst r, inner (snd r)) = plain_lease late (inner s) /\
   sleeps (snd r) = (sleeps s0 + j + 1)%nat /\
   counts (snd r) !! ts = Some n /\
   counts (snd r) !! ts' = Some 1 /\
   armed (snd r) = armed s0 ++ [ts; ts']) /\
  (forall (a : lease_args) (s : lstate),
     let r := lease_limited clock fuel a None s in
     (fst r, inner (snd r)) = plain_lease a (inner s) /\
     counts (snd r) = counts s /\ armed (snd r) = armed s /\
     reads (snd r) = reads s /\ sleeps (snd r) = sleeps s).
Proof.
  intros Hn Hlen Hfresh Hfresh' Hne Hclock Hclock' Hfuel.
  split; [| split].
  - intros before a rest Hb s r.
    assert (Hl : (length batch = length before + S (length rest))%nat)
      by (rewrite Hb, length_app; reflexivity).
    destruct (calls_in_bucket fuel n ts s0 before Hfresh)
      as (Hr & Hs & Hc & Ha); [lia | intros i Hi; apply Hclock; lia |].
    fold s in Hr, Hs, Hc, Ha.
    assert (Hts : clock (reads s) = ts) by (rewrite Hr; apply Hclock; lia).
    assert (E : exists s1, wait_for_rate clock fuel (Some n) s = (Ret tt, s1) /\
              inner s1 = inner s /\ sleeps s1 = sleeps s /\
              counts s1 !! ts = Some (Z.of_nat (S (length before))) /\
              armed s1 = armed s0 ++ [ts]).
    { destruct before as [| b before'].
      - eexists. split; [apply wait_fresh; by rewrite Hts, Hc |].
        simpl. rewrite Hts, Ha, app_nil_r, lookup_insert_eq. done.
      - eexists. split.
        + apply (wait_below fuel n (Z.of_nat (length (b :: before')))).
          * by rewrite Hts, Hc, lookup_insert_eq.
          * lia.
        + cbn [inner sleeps counts armed].
          rewrite Hts, Ha, lookup_insert_eq. repeat split. f_equal. lia. }
    destruct E as (s1 & Hw & Hi1 & Hs1 & Hc1 & Ha1).
    destruct (lease_limited_after_wait fuel a (Some n) s s1 Hw)
      as (Hres & Hc2 & Ha2 & _ & Hs2).
    fold r in Hres, Hc2, Ha2, Hs2.
    rewrite Hres, Hi1, Hs2, Hs1, Hs, Hc2, Hc1, Ha2, Ha1. done.
  - intros s r.
    destruct (calls_in_bucket fuel n ts s0 batch Hfresh)
      as (Hr & Hs & Hc & Ha); [lia | intros i Hi; apply Hclock; lia |].
    fold s in Hr, Hs, Hc, Ha.
    destruct batch as [| b batch']; [simpl in Hlen; lia |].
    assert (Hw : wait_for_rate clock fuel (Some n) s =
              (Ret tt,
               LState (inner s) (<[ts' := 1]> (counts s)) (armed s ++ [ts'])
                      (reads s + j + 2) (sleeps s + j + 1))).
    { apply (wait_rollover n n ts ts' j fuel s).
      - by rewrite Hc, lookup_insert_eq, Hlen.
      - lia.
      - by rewrite Hc, lookup_insert_ne.
      - intros i Hi. rewrite Hr, <- Nat.add_assoc. apply Hclock. lia.
      - by rewrite Hr.
      - done. }
    destruct (lease_limited_after_wait fuel late (Some n) s _ Hw)
      as (Hres & Hc2 & Ha2 & _ & Hs2).
    fold r in Hres, Hc2, Ha2, Hs2. cbn [inner counts armed sleeps] in *.
    rewrite Hres, Hs2, Hc2, Ha2, Hs, Hc, Ha.
    rewrite lookup_insert_ne, !lookup_insert_eq, <- app_assoc, Hlen by done.
    done.
  - intros a s r.
    destruct (lease_limited_after_wait fuel a None s s (wait_no_limit fuel s))
      as (H1 & H2 & H3 & H4 & H5).
    done.
Qed.

End LimiterFacts.

Lemma lease_rate_limit_witness :
  let clock := fun k : nat => if (k <? 3)%nat then 0 else 1 in
  let a := LeaseArgs 5 false None None in
  let ks : keyspace := {[ "jobs" := Lst [[x63%byte]; [x62%byte]; [x61%byte]] ]} in
  let s0 := LState (__init__ "jobs" 7 ks) ∅ [] 0 0 in
  let s := calls clock 1 (Some 2) [a; a] s0 in
  let r := lease_limited clock 1 a (Some 2) s in
  (fst r, inner (snd r)) = plain_lease a (inner s) /\
  sleeps (snd r) = 1%nat /\
  armed (snd r) = [0; 1].
Proof.
  intros clock a ks s0 s r.
  destruct (lease_rate_limit clock 2 0 1 0 1 s0 [a; a] a) as (_ & H & _);
    try reflexivity; try lia.
  - intros i Hi. simpl in Hi. simpl. unfold clock.
    destruct (Nat.ltb_spec i 3); [reflexivity | lia].
  - destruct H as (H1 & H2 & _ & _ & H5).
    exact (conj H1 (conj H2 H5)).
Defined.

(** * Further properties of the queue *)

(** ** The key names *)

Lemma append_cons (c : ascii) (s t : string) :
  String c s +:+ t = String c (s +:+ t).
Proof. reflexivity. Qed.

Lemma colon_free_append (a : string) (t : string) :
  colon_free (a +:+ String ":" t) = false.
Proof.
  induction a as [| c a IH]; [reflexivity |].
  rewrite append_cons. simpl. rewrite IH. apply andb_false_r.
Qed.

(** Two colon-free names followed by a colon: the names are the same. *)
Lemma colon_split (a : string) :
  forall (b s t : string),
  colon_free a = true -> colon_free b = true ->
  a +:+ String ":" s = b +:+ String ":" t -> a = b.
Proof.
  induction a as [| c a IH]; intros [| c' b] s t Ha Hb E.
  - reflexivity.
  - rewrite append_cons in E. injection E as <- _. discriminate.
  - rewrite append_cons in E. injection E as -> _. discriminate.
  - rewrite !append_cons in E. injection E as -> E.
    simpl in Ha, Hb. apply andb_prop in Ha as [_ Ha], Hb as [_ Hb].
    f_equal. by eapply IH.
Qed.

(** Every key of a queue is its name, or its name, a colon and more. *)
Lemma queue_key_form (name k : string) :
  queue_key name k ->
  k = name \/ exists t : string, k = name +:+ String ":" t.
Proof.
  intros [-> | [-> | [-> | [-> | [h ->]]]]]; [by left | right ..].
  - by eexists.
  - by eexists.
  - by eexists.
  - rewrite append_assoc'. by eexists.
Qed.

(** X1: the four list keys that [__init__] derives from the name and any
    lease key of the queue are five different keys, whatever the name; and
    two lease keys are the same only for the same content hash. *)
Theorem queue_keys_pairwise_distinct (name : string) (rand : Z) (ks : keyspace)
    (h h' : string) :
  let q := self (__init__ name rand ks) in
  NoDup [_main_q_key q; _processing_q_key q; _error_q_key q;
         _error_messages_q_key q; _lease_key_prefix q +:+ h] /\
  (_lease_key_prefix q +:+ h = _lease_key_prefix q +:+ h' -> h = h').
Proof.
  intros q.
  destruct (keys_distinct name rand ks) as (H1 & H2 & H3 & H4 & H5 & H6).
  destruct (lease_key_distinct name rand ks h) as (L1 & L2 & L3 & L4).
  fold q in H1, H2, H3, H4, H5, H6, L1, L2, L3, L4.
  split; [| apply String.app_inj].
  repeat (apply NoDup_cons; split);
    rewrite ?not_elem_of_cons; repeat split;
    try apply not_elem_of_nil; try apply NoDup_nil;
    first [done | congruence].
Qed.

(** X2: two queues whose names differ and hold no colon share no key: no
    list of one is a list or a lease key of the other. *)
Theorem queues_share_no_key (name1 name2 k : string) :
  colon_free name1 = true ->
  colon_free name2 = true ->
  name1 <> name2 ->
  queue_key name1 k -> ~ queue_key name2 k.
Proof.
  intros F1 F2 Hne K1 K2.
  apply queue_key_form in K1 as [-> | [t1 ->]];
    apply queue_key_form in K2 as [E | [t2 E]].
  - done.
  - rewrite E in F1. by rewrite colon_free_append in F1.
  - rewrite <- E in F2. by rewrite colon_free_append in F2.
  - apply Hne. by eapply colon_split.
Qed.

Lemma queues_share_no_key_witness :
  ~ queue_key "done" "jobs:processing".
Proof.
  apply (queues_share_no_key "jobs" "done" "jobs:processing");
    [reflexivity | reflexivity | discriminate |].
  right. left. reflexivity.
Defined.

(** X3: the content hash of an item is a string of 56 characters, each
    one of [0-9a-f], whatever the item; so a lease key is the prefix
    followed by 56 such characters. *)
Theorem itemkey_format (item : bytes) (name : string) (rand : Z) (ks : keyspace) :
  let q := self (__init__ name rand ks) in
  String.length (_itemkey item) = 56%nat /\
  Hex.all_digits (_itemkey item) = true /\
  String.length (_lease_key_prefix q +:+ _itemkey item)
    = (String.length name + 75)%nat.
Proof.
  intros q.
  assert (Hlen : String.length (_itemkey item) = 56%nat).
  { unfold _itemkey, SHA224.hexdigest.
    rewrite !string_length_append, !render_length. reflexivity. }
  split; [exact Hlen | split].
  - unfold _itemkey, SHA224.hexdigest.
    repeat (apply all_digits_append; [apply render_digits |]).
    apply render_digits.
  - subst q. simpl. rewrite !string_length_append, Hlen. simpl. lia.
Qed.

(** ** [put] *)

(** X4: [put] pushes the item on the head of the pending list, after which
    [_main_qsize()] is one more than the length before; it raises, changing
    nothing, when the pending key holds a string; and in every case it
    leaves all other keys as they were. *)
Theorem put_effect (name : string) (rand : Z) (ks : keyspace) (item : bytes) :
  let w := __init__ name rand ks in
  (forall l : list bytes,
     list_at ks name = Some l ->
     put item w = (Ret tt, __init__ name rand (<[name := Lst (item :: l)]> ks)) /\
     fst (_main_qsize (after (put item) w)) = Ret (Z.of_nat (length l) + 1)) /\
  (list_at ks name = None -> put item w = (Raise WRONGTYPE, w)) /\
  (forall k : string, k <> name -> db (after (put item) w) !! k = ks !! k).
Proof.
  intros w. subst w. split; [| split].
  - intros l Hl.
    assert (E : put item (__init__ name rand ks)
                = (Ret tt, __init__ name rand (<[name := Lst (item :: l)]> ks))).
    { wq_unfold. by rewrite (LPUSH_ok _ _ _ l Hl). }
    split; [exact E |]. unfold after. rewrite E.
    wq_unfold. unfold LLEN. rewrite list_at_insert_eq. simpl. f_equal. lia.
  - intros Hl. wq_unfold. unfold LPUSH. by rewrite Hl.
  - intros k Hk. unfold after. wq_unfold. unfold LPUSH.
    destruct (list_at ks name); simpl; [by rewrite lookup_insert_ne | done].
Qed.

Lemma put_effect_witness :
  let ks : keyspace := {[ "jobs" := Lst [[x62%byte]] ]} in
  let w := __init__ "jobs" 7 ks in
  put [x61%byte] w
    = (Ret tt, __init__ "jobs" 7 (<["jobs" := Lst [[x61%byte]; [x62%byte]]]> ks)) /\
  fst (_main_qsize (after (put [x61%byte]) w)) = Ret 2.
Proof.
  intros ks w.
  destruct (put_effect "jobs" 7 ks [x61%byte]) as (H & _ & _).
  apply (H [[x62%byte]]). reflexivity.
Defined.

(** ** [lease] *)

Lemma BRPOPLPUSH_available (ks : keyspace) (src dst : string)
    (timeout : option Z) (arrival : option bytes) (l : list bytes) (x : bytes) :
  0 <= default 0 timeout ->
  list_at ks src = Some (l ++ [x]) ->
  BRPOPLPUSH src dst timeout arrival ks = RPOPLPUSH src dst ks.
Proof.
  intros Ht Hs. unfold BRPOPLPUSH.
  destruct (Z.ltb_spec (default 0 timeout) 0) as [? | _]; [lia |].
  rewrite Hs. destruct l; reflexivity.
Qed.



(** The body of [lease] on a constructed object, command by command. *)
Lemma lease_run (name : string) (rand : Z) (ks : keyspace) (lease_secs : Z)
    (block : bool) (timeout : option Z) (arrival : option bytes) :
  lease lease_secs block timeout arrival (__init__ name rand ks) =
    match (if block
           then BRPOPLPUSH name (name +:+ ":processing") timeout arrival ks
           else RPOPLPUSH name (name +:+ ":processing") ks) with
    | (Ret (Some i), ks1) =>
        if truthy i then
          match SETEX ((name +:+ ":leased_by_session:") +:+ _itemkey i)
                      lease_secs
                      (list_byte_of_string (UUID.str (UUID.uuid4 rand))) ks1 with
          | (Ret _, ks2) => (Ret (Some i), __init__ name rand ks2)
          | (Raise e, ks2) => (Raise e, __init__ name rand ks2)
          | (Hang, ks2) => (Hang, __init__ name rand ks2)
          end
        else (Ret (Some i), __init__ name rand ks1)
    | (Ret None, ks1) => (Ret None, __init__ name rand ks1)
    | (Raise e, ks1) => (Raise e, __init__ name rand ks1)
    | (Hang, ks1) => (Hang, __init__ name rand ks1)
    end.
Proof.
  destruct block; wq_unfold;
    [ destruct (BRPOPLPUSH name (name +:+ ":processing") timeout arrival ks)
        as [[[i |] | e |] ks1]
    | destruct (RPOPLPUSH name (name +:+ ":processing") ks)
        as [[[i |] | e |] ks1] ];
    simpl; try reflexivity;
    (destruct (truthy i); simpl; [| reflexivity]);
    by destruct (SETEX _ lease_secs _ ks1) as [[[] | e |] ks2].
Qed.

Lemma SETEX_ok (k : string) (seconds : Z) (v : bytes) (ks : keyspace) :
  0 < seconds ->
  SETEX k seconds v ks = (Ret tt, <[k := Str v (Some seconds)]> ks).
Proof.
  intros H. unfold SETEX.
  destruct (Z.leb_spec seconds 0); [lia | reflexivity].
Qed.

Lemma SETEX_rejected (k : string) (seconds : Z) (v : bytes) (ks : keyspace) :
  seconds <= 0 -> SETEX k seconds v ks = (Raise InvalidExpire, ks).
Proof.
  intros H. unfold SETEX.
  destruct (Z.leb_spec seconds 0); [reflexivity | lia].
Qed.

Lemma RPOPLPUSH_nothing (ks : keyspace) (src dst : string) :
  list_at ks src = Some [] -> RPOPLPUSH src dst ks = (Ret None, ks).
Proof. intros H. unfold RPOPLPUSH. by rewrite H. Qed.

Lemma BRPOPLPUSH_nothing (ks : keyspace) (src dst : string) (timeout : option Z) :
  list_at ks src = Some [] ->
  snd (BRPOPLPUSH src dst timeout None ks) = ks /\
  forall x : bytes, fst (BRPOPLPUSH src dst timeout None ks) <> Ret (Some x).
Proof.
  intros H. unfold BRPOPLPUSH.
  destruct (default 0 timeout <? 0); [done |]. rewrite H.
  by destruct (default 0 timeout =? 0).
Qed.

Lemma BRPOPLPUSH_negative (ks : keyspace) (src dst : string) (timeout : option Z)
    (arrival : option bytes) :
  default 0 timeout < 0 ->
  BRPOPLPUSH src dst timeout arrival ks = (Raise NegativeTimeout, ks).
Proof.
  intros H. unfold BRPOPLPUSH.
  destruct (Z.ltb_spec (default 0 timeout) 0); [reflexivity | lia].
Qed.

(** X6: a lease loses no item and makes none up.  When the pending and the
    processing keys hold lists and no other client pushes meanwhile, then
    after the call, whatever its arguments and its outcome, the pending list
    followed by the processing list is the same sequence as before: the
    only change is that the boundary may have moved by one item. *)
Theorem lease_keeps_the_items (name : string) (rand : Z) (ks : keyspace)
    (lease_secs : Z) (block : bool) (timeout : option Z) (l d : list bytes) :
  let w := __init__ name rand ks in
  let q := self w in
  let w' := after (lease lease_secs block timeout None) w in
  list_at ks (_main_q_key q) = Some l ->
  list_at ks (_processing_q_key q) = Some d ->
  exists l' d' : list bytes,
    list_at (db w') (_main_q_key q) = Some l' /\
    list_at (db w') (_processing_q_key q) = Some d' /\
    l' ++ d' = l ++ d.
Proof.
  intros w q w' Hm Hp. subst w' w q. unfold after.
  destruct (keys_distinct name rand ks) as (Hmp & _). simpl in *.
  rewrite lease_run.
  destruct l as [| y l0 _] using rev_ind.
  - (* nothing to move: the keyspace is as before *)
    assert (E : exists o,
              (if block
               then BRPOPLPUSH name (name +:+ ":processing") timeout None ks
               else RPOPLPUSH name (name +:+ ":processing") ks) = (o, ks)
              /\ forall x, o <> Ret (Some x)).
    { destruct block.
      - destruct (BRPOPLPUSH_nothing ks name (name +:+ ":processing") timeout Hm)
          as [H1 H2].
        destruct (BRPOPLPUSH _ _ _ _ _) as [o ks1]. simpl in *. subst ks1.
        by exists o.
      - rewrite (RPOPLPUSH_nothing _ _ _ Hm). by eexists. }
    destruct E as (o & -> & Ho).
    destruct o as [[x |] | e |]; [by destruct (Ho x) | ..];
      by exists [], d.
  - (* the tail [y] moves to the head of the processing list *)
    set (moved := <[name +:+ ":processing" := Lst (y :: d)]>
                    (store_list name l0 ks)).
    assert (Hlists : list_at moved name = Some l0 /\
                     list_at moved (name +:+ ":processing") = Some (y :: d)).
    { subst moved.
      by rewrite list_at_insert_ne, list_at_store_eq, list_at_insert_eq. }
    destruct Hlists as [Hl0 Hyd].
    destruct (lease_key_distinct name rand ks (_itemkey y)) as (L1 & L2 & _).
    simpl in L1, L2.
    assert (E : (if block
                 then BRPOPLPUSH name (name +:+ ":processing") timeout None ks
                 else RPOPLPUSH name (name +:+ ":processing") ks)
                = (Ret (Some y), moved)
                \/ (if block
                 then BRPOPLPUSH name (name +:+ ":processing") timeout None ks
                 else RPOPLPUSH name (name +:+ ":processing") ks)
                = (Raise NegativeTimeout, ks)).
    { destruct block; [| left; by apply RPOPLPUSH_ok].
      destruct (Z.lt_ge_cases (default 0 timeout) 0) as [Hneg | Hpos].
      - right. by apply BRPOPLPUSH_negative.
      - left. rewrite (BRPOPLPUSH_available _ _ _ _ _ l0 y Hpos Hm).
        by apply RPOPLPUSH_ok. }
    destruct E as [-> | ->]; [| by exists (l0 ++ [y]), d].
    exists l0, (y :: d).
    destruct (truthy y); simpl;
      [| by rewrite Hl0, Hyd, <- app_assoc].
    destruct (Z.lt_ge_cases 0 lease_secs) as [Hs | Hs].
    + rewrite SETEX_ok by done. simpl.
      by rewrite !list_at_insert_ne, Hl0, Hyd, <- app_assoc.
    + rewrite SETEX_rejected by lia. simpl.
      by rewrite Hl0, Hyd, <- app_assoc.
Qed.

Lemma lease_keeps_the_items_witness :
  let ks : keyspace := {[ "jobs" := Lst [[x62%byte]; [x61%byte]] ]} in
  let w' := after (lease 5 false None None) (__init__ "jobs" 7 ks) in
  exists l' d' : list bytes,
    list_at (db w') "jobs" = Some l' /\
    list_at (db w') "jobs:processing" = Some d' /\
    l' ++ d' = [[x62%byte]; [x61%byte]] ++ [].
Proof.
  intros ks w'.
  apply (lease_keeps_the_items "jobs" 7 ks 5 false None
           [[x62%byte]; [x61%byte]] []); reflexivity.
Defined.

Lemma lease_writes_record_witness :
  let a := [x61%byte] in
  let ks : keyspace :=
    {[ "jobs" := Lst [a];
       "jobs:leased_by_session:" +:+ _itemkey a := Str [x7a%byte] (Some 99) ]} in
  let w := __init__ "jobs" 7 ks in
  db (__init__ "jobs" 7 (leased (self w) 5 a [] [] ks))
    !! ("jobs:leased_by_session:" +:+ SHA224.hexdigest a)
    = Some (Str (list_byte_of_string (_session (self w))) (Some 5)).
Proof.
  intros a ks w.
  destruct (lease_writes_record "jobs" 7 ks 5 false None None a
              (__init__ "jobs" 7 (leased (self w) 5 a [] [] ks))) as [H _].
  - apply (lease_ok "jobs" 7 ks 5 None None [] [] a); [lia | |].
    + unfold ks. simpl. rewrite list_at_insert_eq. reflexivity.
    + unfold ks. simpl.
      rewrite list_at_insert_ne by (apply append_ne_self).
      unfold list_at. rewrite lookup_singleton_ne; [reflexivity |].
      destruct (lease_key_distinct "jobs" 7 ∅ (_itemkey a)) as (_ & H & _).
      exact H.
  - discriminate.
  - exact H.
Defined.

(** X8: a lease whose [lease_secs] is zero or negative takes the item all
    the same: the item goes from the tail of the pending list to the head of
    the processing list, then the store rejects the expiry and the call
    raises, so the item is left in the processing list with no lease record
    written for it. *)
Theorem lease_rejected_expiry_strands_item (name : string) (rand : Z)
    (ks : keyspace) (lease_secs : Z) (timeout : option Z)
    (arrival : option bytes) (l d : list bytes) (x : bytes) :
  let w := __init__ name rand ks in
  let q := self w in
  lease_secs <= 0 ->
  x <> [] ->
  list_at ks (_main_q_key q) = Some (l ++ [x]) ->
  list_at ks (_processing_q_key q) = Some d ->
  lease lease_secs false timeout arrival w =
    (Raise InvalidExpire,
     __init__ name rand
       (<[_processing_q_key q := Lst (x :: d)]> (store_list (_main_q_key q) l ks))).
Proof.
  intros w q Hs Hx Hm Hp. subst w q.
  destruct (keys_distinct name rand ks) as (Hmp & _). simpl in *.
  rewrite lease_run, (RPOPLPUSH_ok _ _ _ l d x Hmp Hm Hp).
  destruct x as [| b x]; [done |]. simpl.
  by rewrite SETEX_rejected.
Qed.

Lemma lease_rejected_expiry_strands_item_witness :
  let ks : keyspace := {[ "jobs" := Lst [[x62%byte]; [x61%byte]] ]} in
  lease 0 false None None (__init__ "jobs" 7 ks) =
    (Raise InvalidExpire,
     __init__ "jobs" 7
       (<["jobs:processing" := Lst [[x61%byte]]]>
          (store_list "jobs" [[x62%byte]] ks))).
Proof.
  intros ks.
  apply (lease_rejected_expiry_strands_item "jobs" 7 ks 0 None None
           [[x62%byte]] [] [x61%byte]);
    [lia | discriminate | reflexivity | reflexivity].
Defined.



(** ** [_lease_exists] *)

Lemma EXISTS_one (k : string) (ks : keyspace) :
  EXISTS [k] ks = (Ret (match ks !! k with Some _ => 1 | None => 0 end), ks).
Proof.
  unfold EXISTS. destruct (ks !! k) as [e |] eqn:E.
  - rewrite filter_cons_True by (by rewrite E). reflexivity.
  - rewrite filter_cons_False by (rewrite E; by intros [? ?]). reflexivity.
Qed.

Lemma lease_exists_run (name : string) (rand : Z) (ks : keyspace) (item : bytes) :
  _lease_exists item (__init__ name rand ks) =
    (Ret (match ks !! ((name +:+ ":leased_by_session:") +:+ _itemkey item) with
          | Some _ => 1
          | None => 0
          end),
     __init__ name rand ks).
Proof.
  unfold _lease_exists. rewrite bind_run. unfold get_self, on_db.
  cbn [self db __init__ _lease_key_prefix]. by rewrite EXISTS_one.
Qed.

(** The record of a lease that returned a non-empty item is in the store. *)
Lemma lease_record_present (name : string) (rand : Z) (ks : keyspace)
    (lease_secs : Z) (block : bool) (timeout : option Z)
    (arrival : option bytes) (x : bytes) (w' : world) :
  lease lease_secs block timeout arrival (__init__ name rand ks)
    = (Ret (Some x), w') ->
  x <> [] ->
  exists ks' : keyspace,
    w' = __init__ name rand ks' /\
    is_Some (ks' !! ((name +:+ ":leased_by_session:") +:+ _itemkey x)).
Proof.
  rewrite lease_run.
  destruct (if block then _ else _) as [[[i |] | e |] ks1]; try discriminate.
  destruct i as [| b i]; simpl.
  - intros [= <- _] Hx. done.
  - unfold SETEX. destruct (lease_secs <=? 0); [discriminate |].
    intros [= <- <-] _. eexists. split; [reflexivity |].
    by rewrite lookup_insert_eq.
Qed.

(** X10: [_lease_exists] only reads: it answers 1 or 0 and leaves the state
    as it was; after a lease that returned a non-empty item it answers 1
    for that item, and after a [complete] of an item that returned it
    answers 0 for that item. *)
Theorem lease_exists_follows_lease_and_complete (name : string) (rand : Z)
    (ks : keyspace) (item : bytes) :
  let w := __init__ name rand ks in
  snd (_lease_exists item w) = w /\
  (fst (_lease_exists item w) = Ret 1 \/ fst (_lease_exists item w) = Ret 0) /\
  (forall (lease_secs : Z) (block : bool) (timeout : option Z)
          (arrival : option bytes) (w' : world),
     lease lease_secs block timeout arrival w = (Ret (Some item), w') ->
     item <> [] ->
     fst (_lease_exists item w') = Ret 1) /\
  (forall w' : world,
     complete item w = (Ret tt, w') ->
     fst (_lease_exists item w') = Ret 0).
Proof.
  intros w. subst w.
  split; [by rewrite lease_exists_run | split; [| split]].
  - rewrite lease_exists_run. simpl.
    destruct (ks !! _); [by left | by right].
  - intros lease_secs block timeout arrival w' Hl Hx.
    destruct (lease_record_present name rand ks lease_secs block timeout
                arrival item w' Hl Hx) as (ks' & -> & [e He]).
    rewrite lease_exists_run. simpl. by rewrite He.
  - intros w' Hc.
    pose proof (complete_db name rand ks item) as H. simpl in H.
    destruct (list_at ks (name +:+ ":processing")); rewrite H in Hc;
      [| discriminate].
    injection Hc as <-. rewrite lease_exists_run. simpl.
    rewrite lookup_delete. case_decide; [done |].
    by rewrite lookup_delete_eq.
Qed.

(** ** [error] *)

(** The body of [error] on a constructed object, command by command. *)
Lemma error_run (name : string) (rand : Z) (ks : keyspace) (value : bytes)
    (msg : option string) :
  error value msg (__init__ name rand ks) =
    match LREM (name +:+ ":processing") 0 value ks with
    | (Ret n, ks1) =>
        if n =? 0 then (Ret tt, __init__ name rand ks1)
        else
          match LPUSH (name +:+ ":errors") value ks1 with
          | (Ret a, ks2) =>
              match LPUSH (name +:+ ":error_messages")
                      (list_byte_of_string (default "unknown error" msg)) ks2 with
              | (Ret b, ks3) =>
                  if a =? b then (Ret tt, __init__ name rand ks3)
                  else (Raise AssertionError, __init__ name rand ks3)
              | (Raise e, ks3) => (Raise e, __init__ name rand ks3)
              | (Hang, ks3) => (Hang, __init__ name rand ks3)
              end
          | (Raise e, ks2) => (Raise e, __init__ name rand ks2)
          | (Hang, ks2) => (Hang, __init__ name rand ks2)
          end
    | (Raise e, ks1) => (Raise e, __init__ name rand ks1)
    | (Hang, ks1) => (Hang, __init__ name rand ks1)
    end.
Proof.
  wq_unfold.
  destruct (LREM (name +:+ ":processing") 0 value ks) as [[n | e |] ks1];
    simpl; try reflexivity.
  destruct (n =? 0); simpl; [reflexivity |].
  destruct (LPUSH (name +:+ ":errors") value ks1) as [[a | e |] ks2];
    simpl; try reflexivity.
  destruct (LPUSH (name +:+ ":error_messages") _ ks2) as [[b | e |] ks3];
    simpl; try reflexivity.
  by destruct (a =? b).
Qed.

Lemma LREM_frame (k k' : string) (count : Z) (v : bytes) (ks : keyspace) :
  k' <> k -> snd (LREM k count v ks) !! k' = ks !! k'.
Proof.
  intros H. unfold LREM. destruct (list_at ks k); [| done]. simpl.
  destruct (_ =? 0); [done | by rewrite lookup_store_ne].
Qed.

Lemma LPUSH_frame (k k' : string) (v : bytes) (ks : keyspace) :
  k' <> k -> snd (LPUSH k v ks) !! k' = ks !! k'.
Proof.
  intros H. unfold LPUSH. destruct (list_at ks k); [| done]. simpl.
  by rewrite lookup_insert_ne.
Qed.

(** The state [error] leaves is the object as constructed, on a keyspace
    that differs from the one before on the three lists at most. *)
Lemma error_after (name : string) (rand : Z) (ks : keyspace) (value : bytes)
    (msg : option string) :
  exists ks' : keyspace,
    after (error value msg) (__init__ name rand ks) = __init__ name rand ks' /\
    forall k : string,
      k <> name +:+ ":processing" -> k <> name +:+ ":errors" ->
      k <> name +:+ ":error_messages" -> ks' !! k = ks !! k.
Proof.
  unfold after. rewrite error_run.
  set (m := list_byte_of_string (default "unknown error" msg)).
  pose proof (LREM_frame (name +:+ ":processing") ) as F1.
  destruct (LREM (name +:+ ":processing") 0 value ks) as [[n | e |] ks1] eqn:E1;
    simpl; try (eexists; split; [reflexivity |]; intros k H1 H2 H3;
                specialize (F1 k 0 value ks H1); by rewrite E1 in F1).
  assert (G1 : forall k, k <> name +:+ ":processing" -> ks1 !! k = ks !! k).
  { intros k H1. specialize (F1 k 0 value ks H1). by rewrite E1 in F1. }
  destruct (n =? 0); simpl; [eexists; split; [reflexivity | auto] |].
  pose proof (LPUSH_frame (name +:+ ":errors")) as F2.
  destruct (LPUSH (name +:+ ":errors") value ks1) as [[a | e |] ks2] eqn:E2;
    simpl;
    assert (G2 : forall k, k <> name +:+ ":errors" -> ks2 !! k = ks1 !! k)
      by (intros k H2; specialize (F2 k value ks1 H2); by rewrite E2 in F2);
    try (eexists; split; [reflexivity |]; intros k H1 H2 H3;
         by rewrite G2, G1).
  pose proof (LPUSH_frame (name +:+ ":error_messages")) as F3.
  destruct (LPUSH (name +:+ ":error_messages") m ks2) as [[b | e |] ks3] eqn:E3;
    simpl;
    assert (G3 : forall k, k <> name +:+ ":error_messages" -> ks3 !! k = ks2 !! k)
      by (intros k H3; specialize (F3 k m ks2 H3); by rewrite E3 in F3);
    try (eexists; split; [reflexivity |]; intros k H1 H2 H3;
         by rewrite G3, G2, G1).
  destruct (a =? b); eexists; (split; [reflexivity |]); intros k H1 H2 H3;
    by rewrite G3, G2, G1.
Qed.

(** X11: whatever its arguments and its outcome, [error] changes nothing
    but the processing list, the error list and the error-message list: the
    pending list is as before, every other key is as before, and
    [_lease_exists] answers as before for every item, so a lease record is
    never removed by [error]. *)
Theorem error_touches_three_lists_only (name : string) (rand : Z)
    (ks : keyspace) (value : bytes) (msg : option string) :
  let w := __init__ name rand ks in
  let q := self w in
  let w' := after (error value msg) w in
  self w' = q /\
  (forall k : string,
     k <> _processing_q_key q -> k <> _error_q_key q ->
     k <> _error_messages_q_key q -> db w' !! k = ks !! k) /\
  list_at (db w') (_main_q_key q) = list_at ks (_main_q_key q) /\
  (forall item : bytes,
     fst (_lease_exists item w') = fst (_lease_exists item w)).
Proof.
  intros w q w'. subst w' q w.
  destruct (error_after name rand ks value msg) as (ks' & -> & Hfr).
  destruct (keys_distinct name rand ks) as (H1 & H2 & H3 & _).
  split; [reflexivity | split; [exact Hfr | split]].
  - simpl in *. unfold list_at. by rewrite Hfr.
  - intros item. rewrite !lease_exists_run.
    destruct (lease_key_distinct name rand ks (_itemkey item))
      as (_ & L2 & L3 & L4).
    simpl in *. by rewrite Hfr.
Qed.

(** X12: the [assert] of [error] comes after the writes.  When the error
    list and the error-message list have different lengths and the item is
    in the processing list, [error] raises [AssertionError], but the item
    has left the processing list and the item and the message are on the
    heads of the two lists, which still differ in length. *)
Theorem error_asserts_after_writing (name : string) (rand : Z) (ks : keyspace)
    (item : bytes) (msg : option string) (lp le lm : list bytes) :
  let w := __init__ name rand ks in
  let q := self w in
  list_at ks (_processing_q_key q) = Some lp ->
  item ∈ lp ->
  list_at ks (_error_q_key q) = Some le ->
  list_at ks (_error_messages_q_key q) = Some lm ->
  length le <> length lm ->
  error item msg w =
    (Raise AssertionError,
     __init__ name rand
       (<[_error_messages_q_key q :=
            Lst (list_byte_of_string (default "unknown error" msg) :: lm)]>
          (<[_error_q_key q := Lst (item :: le)]>
             (store_list (_processing_q_key q)
                (filter (fun x => x <> item) lp) ks)))).
Proof.
  intros w q Hp Hin He Hm Hlen. subst w q.
  destruct (keys_distinct name rand ks) as (_ & _ & _ & Hpe & Hpm & Hem).
  simpl in *. rewrite error_run.
  destruct (LREM_all_present _ _ _ _ Hp Hin) as (n & Hn & ->).
  destruct (Z.eqb_spec n 0) as [? | _]; [done |].
  rewrite (LPUSH_ok _ _ _ le) by (by rewrite list_at_store_ne).
  rewrite (LPUSH_ok _ _ _ lm)
    by (by rewrite list_at_insert_ne, list_at_store_ne).
  destruct (Z.eqb_spec (Z.of_nat (S (length le))) (Z.of_nat (S (length lm))))
    as [E | _]; [lia | reflexivity].
Qed.

Lemma error_asserts_after_writing_witness :
  let a := [x61%byte] in
  let ks : keyspace :=
    {[ "jobs:processing" := Lst [a]; "jobs:errors" := Lst [a] ]} in
  fst (error a None (__init__ "jobs" 7 ks)) = Raise AssertionError.
Proof.
  intros a ks.
  rewrite (error_asserts_after_writing "jobs" 7 ks a None [a] [a] []);
    [reflexivity | reflexivity | | reflexivity | reflexivity | discriminate].
  apply list_elem_of_singleton. reflexivity.
Defined.

(** X13: [error] is not one step for the store.  When the processing list
    holds the item but the key of the error list holds a string, the item
    is taken out of the processing list, then the push raises: the item is
    in no list any more. *)
Theorem error_can_drop_the_item (name : string) (rand : Z) (ks : keyspace)
    (item : bytes) (msg : option string) (lp : list bytes) :
  let w := __init__ name rand ks in
  let q := self w in
  list_at ks (_processing_q_key q) = Some lp ->
  item ∈ lp ->
  list_at ks (_error_q_key q) = None ->
  let r := error item msg w in
  fst r = Raise WRONGTYPE /\
  list_at (db (snd r)) (_processing_q_key q)
    = Some (filter (fun x => x <> item) lp) /\
  (item ∉ filter (fun x => x <> item) lp) /\
  (forall k : string, k <> _processing_q_key q -> db (snd r) !! k = ks !! k).
Proof.
  intros w q Hp Hin He r. subst r w q.
  destruct (keys_distinct name rand ks) as (_ & _ & _ & Hpe & _).
  simpl in *. rewrite error_run.
  destruct (LREM_all_present _ _ _ _ Hp Hin) as (n & Hn & ->).
  destruct (Z.eqb_spec n 0) as [? | _]; [done |].
  assert (E : LPUSH (name +:+ ":errors") item
                (store_list (name +:+ ":processing") (lrem_list 0 item lp) ks)
              = (Raise WRONGTYPE,
                 store_list (name +:+ ":processing") (lrem_list 0 item lp) ks)).
  { unfold LPUSH. by rewrite list_at_store_ne, He. }
  rewrite E. simpl. repeat split.
  - by rewrite list_at_store_eq.
  - rewrite list_elem_of_filter. tauto.
  - intros k Hk. by rewrite lookup_store_ne.
Qed.

Lemma error_can_drop_the_item_witness :
  let a := [x61%byte] in
  let ks : keyspace :=
    {[ "jobs:processing" := Lst [a]; "jobs:errors" := Str a None ]} in
  let r := error a None (__init__ "jobs" 7 ks) in
  fst r = Raise WRONGTYPE /\ list_at (db (snd r)) "jobs:processing" = Some [].
Proof.
  intros a ks r.
  destruct (error_can_drop_the_item "jobs" 7 ks a None [a])
    as (H1 & H2 & _); [reflexivity | | reflexivity |].
  - apply list_elem_of_singleton. reflexivity.
  - split; [exact H1 |]. etransitivity; [exact H2 |].
    rewrite filter_cons_False by (intros H; by apply H). reflexivity.
Defined.

(** ** The session id and [complete] *)

Lemma colon_free_app (a b : string) :
  colon_free (a +:+ b) = colon_free a && colon_free b.
Proof.
  induction a as [| c a IH]; [reflexivity |].
  rewrite append_cons. simpl. rewrite IH. by rewrite andb_assoc.
Qed.

Lemma colon_free_substring (s : string) :
  forall n m : nat, colon_free s = true -> colon_free (substring n m s) = true.
Proof.
  induction s as [| c s IH]; intros [| n] [| m] H; simpl in *; try done;
    apply andb_prop in H as [Hc Hs]; auto.
  by rewrite Hc, IH.
Qed.

Lemma length_substring (s : string) :
  forall n m : nat,
  (n + m <= String.length s)%nat -> String.length (substring n m s) = m.
Proof.
  induction s as [| c s IH]; intros [| n] [| m] H; simpl in *; try lia.
  - by rewrite IH by lia.
  - by rewrite IH by lia.
  - by rewrite IH by lia.
Qed.

Lemma digits_colon_free (s : string) :
  Hex.all_digits s = true -> colon_free s = true.
Proof.
  induction s as [| c s IH]; [done |]. simpl.
  intros H. apply andb_prop in H as [Hc Hs]. rewrite IH by done.
  destruct (Ascii.eqb_spec c ":") as [-> | _]; [discriminate | reflexivity].
Qed.

Lemma session_colon_free (rand : Z) :
  colon_free (UUID.str (UUID.uuid4 rand)) = true.
Proof.
  unfold UUID.str.
  pose proof (digits_colon_free _ (render_digits 32 (UUID.uuid4 rand))) as Hc.
  set (hex := Hex.render 32 (UUID.uuid4 rand)) in *. cbv zeta.
  rewrite !colon_free_app, !colon_free_substring by done. reflexivity.
Qed.

Lemma session_not_derived (name : string) (rand : Z) (t : string) :
  UUID.str (UUID.uuid4 rand) <> name +:+ String ":" t.
Proof.
  intros E. pose proof (session_colon_free rand) as H.
  rewrite E in H. by rewrite colon_free_append in H.
Qed.

(** X14: the session id that [__init__] draws is 36 characters long and
    holds no colon, whatever the random bits; so it is never the name of a
    processing list, of an error list, of an error-message list or of a
    lease key, of this queue or of any other. *)
Theorem session_id_is_no_derived_key (name : string) (rand : Z) (ks : keyspace) :
  let q := self (__init__ name rand ks) in
  String.length (_session q) = 36%nat /\
  colon_free (_session q) = true /\
  (forall name' k : string, queue_key name' k -> k <> name' -> _session q <> k).
Proof.
  intros q. subst q. unfold __init__. cbn [self _session].
  split; [| split; [apply session_colon_free |]].
  - unfold UUID.str.
    pose proof (render_length 32 (UUID.uuid4 rand)) as Hl.
    set (hex := Hex.render 32 (UUID.uuid4 rand)) in *. cbv zeta.
    rewrite !string_length_append, !length_substring by lia. reflexivity.
  - intros name' k Hk Hne E.
    apply queue_key_form in Hk as [-> | [t ->]]; [done |].
    by apply session_not_derived in E.
Qed.

(** X15: when the processing key holds a list, [complete] returns
    normally: afterwards the processing list is the old one without any
    occurrence of the item, the other items in their order, the lease key of
    the item does not exist, and the error list, the error-message list and
    the lease records of other items are as they were, whatever the session
    id is. *)
Theorem complete_effect (name : string) (rand : Z) (ks : keyspace)
    (value : bytes) (lp : list bytes) :
  let w := __init__ name rand ks in
  let q := self w in
  let r := complete value w in
  list_at ks (_processing_q_key q) = Some lp ->
  fst r = Ret tt /\
  self (snd r) = q /\
  list_at (db (snd r)) (_processing_q_key q)
    = Some (filter (fun x => x <> value) lp) /\
  db (snd r) !! (_lease_key_prefix q +:+ _itemkey value) = None /\
  (forall t : string,
     name +:+ String ":" t <> _processing_q_key q ->
     name +:+ String ":" t <> _lease_key_prefix q +:+ _itemkey value ->
     db (snd r) !! (name +:+ String ":" t) = ks !! (name +:+ String ":" t)).
Proof.
  intros w q r Hp. subst r q w.
  pose proof (complete_db name rand ks value) as H. simpl in *.
  rewrite Hp in H. rewrite H. simpl.
  assert (Hs : forall t, UUID.str (UUID.uuid4 rand) <> name +:+ String ":" t)
    by (intros t; apply session_not_derived).
  assert (Hsl : UUID.str (UUID.uuid4 rand)
                <> (name +:+ ":leased_by_session:") +:+ _itemkey value)
    by (rewrite append_assoc'; apply Hs).
  destruct (lease_key_distinct name rand ks (_itemkey value)) as (_ & Hlp & _).
  simpl in Hlp.
  repeat split.
  - unfold list_at. rewrite !lookup_delete_ne by (done || apply Hs).
    fold (list_at (snd (LREM (name +:+ ":processing") 0 value ks))
                  (name +:+ ":processing")).
    unfold LREM. rewrite Hp. simpl.
    destruct (Z.eqb_spec (Z.of_nat (length lp - length (lrem_list 0 value lp))) 0)
      as [Hz | Hnz].
    + rewrite Hp. f_equal. symmetry. apply lrem_all_absent.
      intros Hin. pose proof (lrem_all_present value lp Hin). lia.
    + by rewrite list_at_store_eq.
  - rewrite lookup_delete_ne by done. by rewrite lookup_delete_eq.
  - intros t H1 H2.
    rewrite !lookup_delete_ne by (done || (intros E; by apply (Hs t))).
    by apply LREM_frame.
Qed.

Lemma complete_effect_witness :
  let a := [x61%byte] in
  let b := [x62%byte] in
  let ks : keyspace := {[ "jobs:processing" := Lst [a; b; a] ]} in
  let r := complete a (__init__ "jobs" 7 ks) in
  fst r = Ret tt /\
  list_at (db (snd r)) "jobs:processing" = Some (filter (fun x => x <> a) [a; b; a]).
Proof.
  intros a b ks r.
  destruct (complete_effect "jobs" 7 ks a [a; b; a]) as (H1 & _ & H2 & _);
    [reflexivity |].
  split; [exact H1 | exact H2].
Defined.

Lemma complete_frame_witness :
  let a := [x61%byte] in
  let ks : keyspace := {[ "other" := Str a None ]} in
  db (after (complete a) (__init__ "jobs" 7 ks)) !! "other" = ks !! "other".
Proof.
  intros a ks.
  apply (complete_frame "jobs" 7 ks a "other");
    intros E; vm_compute in E; discriminate.
Defined.

(** ** [empty] *)

Lemma empty_when_both_empty (name : string) (rand : Z) (ks : keyspace) :
  list_at ks name = Some [] ->
  list_at ks (name +:+ ":processing") = Some [] ->
  empty (__init__ name rand ks) = (Ret true, __init__ name rand ks).
Proof.
  intros Hm Hp. wq_unfold. unfold LLEN. rewrite Hm. simpl. by rewrite Hp.
Qed.

(** X16: the answers of [empty] when it is not true.  With an item in the
    pending list it answers false without reading the processing key, even
    one that holds a string; it raises when the pending key holds a string;
    with an empty pending list it answers false when the processing list
    has an item and raises when the processing key holds a string. *)
Theorem empty_other_outcomes (name : string) (rand : Z) (ks : keyspace) :
  let w := __init__ name rand ks in
  let q := self w in
  (forall (x : bytes) (l : list bytes),
     list_at ks (_main_q_key q) = Some (x :: l) -> empty w = (Ret false, w)) /\
  (list_at ks (_main_q_key q) = None -> empty w = (Raise WRONGTYPE, w)) /\
  (forall (y : bytes) (d : list bytes),
     list_at ks (_main_q_key q) = Some [] ->
     list_at ks (_processing_q_key q) = Some (y :: d) ->
     empty w = (Ret false, w)) /\
  (list_at ks (_main_q_key q) = Some [] ->
   list_at ks (_processing_q_key q) = None ->
   empty w = (Raise WRONGTYPE, w)).
Proof.
  intros w q. subst q w. simpl.
  split; [| split; [| split]].
  - intros x l Hm. wq_unfold. unfold LLEN. by rewrite Hm.
  - intros Hm. wq_unfold. unfold LLEN. by rewrite Hm.
  - intros y d Hm Hp. wq_unfold. unfold LLEN. rewrite Hm. simpl. by rewrite Hp.
  - intros Hm Hp. wq_unfold. unfold LLEN. rewrite Hm. simpl. by rewrite Hp.
Qed.

(** ** Items through the queue *)

Lemma lrem_all_singleton (x : bytes) : lrem_list 0 x [x] = [].
Proof.
  unfold lrem_list. simpl. by rewrite filter_cons_False by (intros H; by apply H).
Qed.

(** The keyspace after [put(item)] and a lease, from an empty queue. *)
Lemma put_lease_from_empty (name : string) (rand : Z) (ks : keyspace)
    (item : bytes) :
  let q := self (__init__ name rand ks) in
  let ks2 := leased q 5 item [] [] (<[name := Lst [item]]> ks) in
  fst (empty (__init__ name rand ks)) = Ret true ->
  put item (__init__ name rand ks)
    = (Ret tt, __init__ name rand (<[name := Lst [item]]> ks)) /\
  lease 5 false None None (__init__ name rand (<[name := Lst [item]]> ks))
    = (Ret (Some item), __init__ name rand ks2) /\
  ks2 !! name = None /\
  list_at ks2 (name +:+ ":processing") = Some [item] /\
  (forall k : string,
     k <> name -> k <> name +:+ ":processing" ->
     k <> (name +:+ ":leased_by_session:") +:+ _itemkey item ->
     ks2 !! k = ks !! k) /\
  (item <> [] ->
   is_Some (ks2 !! ((name +:+ ":leased_by_session:") +:+ _itemkey item))).
Proof.
  intros q ks2 Hempty.
  destruct (empty_true_lists name rand ks Hempty) as [Hm Hp].
  destruct (keys_distinct name rand ks) as (Hmp & _).
  destruct (lease_key_distinct name rand ks (_itemkey item)) as (L1 & L2 & _).
  simpl in Hmp, L1, L2.
  split; [by apply put_ok |]. split.
  - apply (lease_ok name rand _ 5 None None [] [] item);
      [lia | apply list_at_insert_eq |].
    simpl. by rewrite list_at_insert_ne.
  - subst ks2 q. unfold leased. simpl. unfold store_list.
    destruct item as [| b item]; simpl; repeat split.
    + by rewrite lookup_insert_ne, lookup_delete_eq.
    + by rewrite list_at_insert_eq.
    + intros k H1 H2 H3.
      by rewrite lookup_insert_ne, lookup_delete_ne, lookup_insert_ne.
    + done.
    + by rewrite !lookup_insert_ne, lookup_delete_eq.
    + by rewrite list_at_insert_ne, list_at_insert_eq.
    + intros k H1 H2 H3.
      by rewrite !lookup_insert_ne, lookup_delete_ne, lookup_insert_ne.
    + intros _. by rewrite lookup_insert_eq.
Qed.

(** X17: one item through the queue.  On a queue that [empty()] reports
    empty: [put(item)], a lease, [complete(item)]; the lease returns the
    item, and afterwards [empty()] is true again and [_lease_exists(item)]
    answers 0. *)
Theorem put_lease_complete_round_trip (name : string) (rand : Z)
    (ks : keyspace) (item : bytes) :
  let w := __init__ name rand ks in
  fst (empty w) = Ret true ->
  fst ((put item;;
        r ← lease 5 false None None;
        complete item;;
        e ← empty;
        x ← _lease_exists item;
        mret (r, e, x)) w) = Ret (Some item, true, 0).
Proof.
  intros w Hempty. subst w.
  destruct (put_lease_from_empty name rand ks item Hempty)
    as (Eput & Elease & Hm2 & Hp2 & _ & _).
  set (ks2 := leased _ 5 item [] [] _) in *.
  rewrite bind_run, Eput, bind_run, Elease, bind_run.
  pose proof (complete_db name rand ks2 item) as Hc. simpl in Hc.
  rewrite Hp2 in Hc. rewrite Hc. clear Hc.
  assert (Hin : item ∈ [item]) by (apply list_elem_of_singleton; reflexivity).
  destruct (LREM_all_present _ _ _ _ Hp2 Hin) as (n & _ & ->). simpl.
  rewrite lrem_all_singleton. unfold store_list.
  set (ks3 := delete _ (delete _ (delete _ ks2))).
  assert (H3m : list_at ks3 name = Some []).
  { unfold list_at, ks3. rewrite !lookup_delete. repeat case_decide; try done.
    by rewrite Hm2. }
  assert (H3p : list_at ks3 (name +:+ ":processing") = Some []).
  { unfold list_at, ks3. rewrite !lookup_delete. by repeat case_decide. }
  assert (H3l : ks3 !! ((name +:+ ":leased_by_session:") +:+ _itemkey item) = None).
  { unfold ks3. rewrite !lookup_delete. by repeat case_decide. }
  rewrite bind_run, (empty_when_both_empty name rand ks3 H3m H3p).
  rewrite bind_run, lease_exists_run, H3l. reflexivity.
Qed.

Lemma put_lease_complete_round_trip_witness :
  let a := [x61%byte] in
  fst ((put a;;
        r ← lease 5 false None None;
        complete a;;
        e ← empty;
        x ← _lease_exists a;
        mret (r, e, x)) (__init__ "jobs" 7 ∅)) = Ret (Some a, true, 0).
Proof.
  intros a. apply (put_lease_complete_round_trip "jobs" 7 ∅ a). reflexivity.
Defined.

(** X18: an item that fails.  On a queue that [empty()] reports empty and
    whose error lists are lists of one length: [put(item)], a lease,
    [error(item, msg)], for a non-empty item.  The lease returns the item;
    afterwards [empty()] is true, the item and the message are on the heads
    of the error list and the error-message list, and [_lease_exists(item)]
    still answers 1: the lease record outlives the item's removal from the
    processing list. *)
Theorem put_lease_error_leaves_lease (name : string) (rand : Z)
    (ks : keyspace) (item : bytes) (msg : option string) (le lm : list bytes) :
  let w := __init__ name rand ks in
  let q := self w in
  let r := (put item;;
            r ← lease 5 false None None;
            error item msg;;
            e ← empty;
            x ← _lease_exists item;
            mret (r, e, x)) w in
  fst (empty w) = Ret true ->
  list_at ks (_error_q_key q) = Some le ->
  list_at ks (_error_messages_q_key q) = Some lm ->
  length le = length lm ->
  item <> [] ->
  fst r = Ret (Some item, true, 1) /\
  list_at (db (snd r)) (_error_q_key q) = Some (item :: le) /\
  list_at (db (snd r)) (_error_messages_q_key q)
    = Some (list_byte_of_string (default "unknown error" msg) :: lm).
Proof.
  intros w q r Hempty He Hm Hlen Hx. subst r q w.
  destruct (put_lease_from_empty name rand ks item Hempty)
    as (Eput & Elease & Hm2 & Hp2 & Hfr2 & Hl2).
  destruct (keys_distinct name rand ks) as (Hmp & Hme & Hmm & Hpe & Hpm & Hem).
  destruct (lease_key_distinct name rand ks (_itemkey item))
    as (L1 & L2 & L3 & L4).
  simpl in *.
  set (ks2 := leased _ 5 item [] [] _) in *.
  rewrite bind_run, Eput, bind_run, Elease, bind_run.
  assert (Hin : item ∈ [item]) by (apply list_elem_of_singleton; reflexivity).
  assert (He2 : list_at ks2 (name +:+ ":errors") = Some le)
    by (unfold list_at in *; by rewrite Hfr2).
  assert (Hm2' : list_at ks2 (name +:+ ":error_messages") = Some lm)
    by (unfold list_at in *; by rewrite Hfr2).
  rewrite (error_present_item name rand ks2 item msg [item] le lm
             Hp2 Hin He2 Hm2' Hlen).
  simpl. rewrite lrem_all_singleton. unfold store_list.
  set (ks3 := <[_ := _]> (<[_ := _]> (delete _ ks2))).
  assert (H3m : list_at ks3 name = Some []).
  { unfold list_at, ks3.
    by rewrite !lookup_insert_ne, lookup_delete_ne, Hm2. }
  assert (H3p : list_at ks3 (name +:+ ":processing") = Some []).
  { unfold list_at, ks3. by rewrite !lookup_insert_ne, lookup_delete_eq. }
  assert (H3l : is_Some (ks3 !! ((name +:+ ":leased_by_session:") +:+ _itemkey item))).
  { unfold ks3. rewrite !lookup_insert_ne, lookup_delete_ne by done.
    by apply Hl2. }
  change (World _ ks3) with (__init__ name rand ks3).
  rewrite bind_run, (empty_when_both_empty name rand ks3 H3m H3p).
  rewrite bind_run, lease_exists_run. destruct H3l as [e ->]. simpl.
  repeat split.
  - unfold ks3. by rewrite list_at_insert_ne, list_at_insert_eq.
  - unfold ks3. by rewrite list_at_insert_eq.
Qed.

Lemma put_lease_error_leaves_lease_witness :
  let a := [x61%byte] in
  let r := (put a;;
            r ← lease 5 false None None;
            error a (Some "boom");;
            e ← empty;
            x ← _lease_exists a;
            mret (r, e, x)) (__init__ "jobs" 7 ∅) in
  fst r = Ret (Some a, true, 1).
Proof.
  intros a r.
  destruct (put_lease_error_leaves_lease "jobs" 7 ∅ a (Some "boom") [] [])
    as [H _]; [reflexivity | reflexivity | reflexivity | reflexivity
               | discriminate |].
  exact H.
Defined.

(** ** First in, first out, for every interleaving *)

Lemma lease_nothing (name : string) (rand : Z) (ks : keyspace) :
  list_at ks name = Some [] ->
  lease 5 false None None (__init__ name rand ks)
    = (Ret None, __init__ name rand ks).
Proof. intros H. by rewrite lease_run, (RPOPLPUSH_nothing _ _ _ H). Qed.

Lemma run_qops_fifo (name : string) (rand : Z) (ops : list qop) :
  forall (ks : keyspace) (waiting d : list bytes),
  list_at ks name = Some (rev waiting) ->
  list_at ks (name +:+ ":processing") = Some d ->
  fst (run_qops ops (__init__ name rand ks)) = Ret (fifo ops waiting).
Proof.
  assert (Hne : name <> name +:+ ":processing") by apply append_ne_self.
  induction ops as [| [item |] ops IH]; intros ks waiting d Hm Hp;
    [reflexivity | |]; cbn [run_qops fifo]; rewrite bind_run.
  - rewrite (put_ok name rand ks item _ Hm).
    apply (IH _ (waiting ++ [item]) d).
    + rewrite list_at_insert_eq, rev_app_distr. reflexivity.
    + by rewrite list_at_insert_ne.
  - destruct waiting as [| x waiting].
    + rewrite (lease_nothing name rand ks Hm), bind_run.
      specialize (IH ks [] d Hm Hp).
      destruct (run_qops ops _) as [[rs | e |] w']; simpl in *; congruence.
    + simpl in Hm.
      rewrite (lease_ok name rand ks 5 None None (rev waiting) d x) by done.
      destruct (leased_lists name rand ks 5 (rev waiting) d x) as [Hm' Hp'].
      rewrite bind_run. specialize (IH _ waiting _ Hm' Hp').
      destruct (run_qops ops _) as [[rs | e |] w']; simpl in *; congruence.
Qed.

(** X19: the queue is first in, first out for every interleaving.  On a
    queue that [empty()] reports empty, any series of [put]s and
    non-blocking leases runs to its end without raising, and each lease
    returns the oldest item put and not yet leased, or [None] when there is
    none, exactly as a first-in first-out queue does. *)
Theorem queue_is_fifo (name : string) (rand : Z) (ks : keyspace)
    (ops : list qop) :
  let w := __init__ name rand ks in
  fst (empty w) = Ret true ->
  fst (run_qops ops w) = Ret (fifo ops []).
Proof.
  intros w Hempty. subst w.
  destruct (empty_true_lists name rand ks Hempty) as [Hm Hp].
  by apply (run_qops_fifo name rand ops ks [] []).
Qed.

Lemma queue_is_fifo_witness :
  let a := [x61%byte] in
  let b := [x62%byte] in
  fst (run_qops [QLease; QPut a; QPut b; QLease; QPut a; QLease; QLease; QLease]
         (__init__ "jobs" 7 ∅))
    = Ret [None; Some a; Some b; Some a; None].
Proof.
  intros a b.
  apply (queue_is_fifo "jobs" 7 ∅
           [QLease; QPut a; QPut b; QLease; QPut a; QLease; QLease; QLease]).
  reflexivity.
Defined.

(** ** Equal items *)

Lemma lease_n_state (name : string) (rand : Z) (items : list bytes) :
  forall (ks : keyspace) (d : list bytes),
  list_at ks name = Some (rev items) ->
  list_at ks (name +:+ ":processing") = Some d ->
  exists ks' : keyspace,
    lease_n (length items) (__init__ name rand ks)
      = (Ret (map Some items), __init__ name rand ks') /\
    list_at ks' name = Some [] /\
    list_at ks' (name +:+ ":processing") = Some (rev items ++ d).
Proof.
  induction items as [| x items IH]; intros ks d Hm Hp.
  - exists ks. by repeat split.
  - cbn [length lease_n]. rewrite bind_run.
    rewrite (lease_ok name rand ks 5 None None (rev items) d x) by done.
    destruct (leased_lists name rand ks 5 (rev items) d x) as [Hm' Hp'].
    destruct (IH _ _ Hm' Hp') as (ks' & E & Hm'' & Hp'').
    exists ks'. rewrite bind_run, E.
    repeat split; [done |].
    rewrite Hp''. simpl. by rewrite <- app_assoc.
Qed.

Lemma rev_repeat_same (x : bytes) (n : nat) : rev (repeat x n) = repeat x n.
Proof.
  induction n as [| n IH]; [reflexivity |].
  simpl. rewrite IH. symmetry. apply repeat_cons.
Qed.

Lemma lrem_all_repeat (x : bytes) (n : nat) : lrem_list 0 x (repeat x n) = [].
Proof.
  unfold lrem_list. simpl.
  induction n as [| n IH]; [reflexivity |]. simpl.
  by rewrite filter_cons_False by (intros H; by apply H).
Qed.

(** X22: equal items are not told apart.  On a queue that [empty()]
    reports empty, put the same item [n] times and lease [n] times: every
    lease returns the item; then one single [complete(item)] takes all the
    copies out of the processing list, and [empty()] is true. *)
Theorem one_complete_for_all_copies (name : string) (rand : Z) (ks : keyspace)
    (item : bytes) (n : nat) :
  let w := __init__ name rand ks in
  fst (empty w) = Ret true ->
  fst ((put_all (repeat item n);;
        rs ← lease_n n;
        complete item;;
        e ← empty;
        mret (rs, e)) w) = Ret (repeat (Some item) n, true).
Proof.
  intros w Hempty. subst w.
  destruct (empty_true_lists name rand ks Hempty) as [Hm Hp].
  assert (Hne : name +:+ ":processing" <> name)
    by (intros E; symmetry in E; revert E; apply append_ne_self).
  destruct (put_all_ok name rand (repeat item n) ks [] Hm)
    as (ks1 & E1 & Hm1 & Hfr1).
  rewrite app_nil_r in Hm1.
  assert (Hp1 : list_at ks1 (name +:+ ":processing") = Some [])
    by (unfold list_at in *; by rewrite (Hfr1 _ Hne)).
  destruct (lease_n_state name rand (repeat item n) ks1 [] Hm1 Hp1)
    as (ks2 & E2 & Hm2 & Hp2).
  rewrite repeat_length, map_repeat in E2.
  rewrite app_nil_r, rev_repeat_same in Hp2.
  rewrite bind_run, E1, bind_run, E2, bind_run.
  pose proof (complete_db name rand ks2 item) as Hc. simpl in Hc.
  rewrite Hp2 in Hc. rewrite Hc. clear Hc.
  set (ks3 := delete _ (delete _ _)).
  assert (Hlrem :
    list_at (snd (LREM (name +:+ ":processing") 0 item ks2))
            (name +:+ ":processing") = Some [] /\
    list_at (snd (LREM (name +:+ ":processing") 0 item ks2)) name = Some []).
  { unfold LREM. rewrite Hp2, lrem_all_repeat. simpl.
    destruct n as [| n]; simpl; [by rewrite Hp2, Hm2 |].
    unfold store_list.
    by rewrite list_at_delete_eq, list_at_delete_ne, Hm2. }
  destruct Hlrem as [H2p H2m].
  assert (H3m : list_at ks3 name = Some []).
  { unfold list_at in *. unfold ks3. rewrite !lookup_delete.
    by repeat case_decide. }
  assert (H3p : list_at ks3 (name +:+ ":processing") = Some []).
  { unfold list_at in *. unfold ks3. rewrite !lookup_delete.
    by repeat case_decide. }
  rewrite bind_run, (empty_when_both_empty name rand ks3 H3m H3p).
  reflexivity.
Qed.

Lemma one_complete_for_all_copies_witness :
  let a := [x61%byte] in
  fst ((put_all (repeat a 3);;
        rs ← lease_n 3;
        complete a;;
        e ← empty;
        mret (rs, e)) (__init__ "jobs" 7 ∅)) = Ret (repeat (Some a) 3, true).
Proof.
  intros a. apply (one_complete_for_all_copies "jobs" 7 ∅ a 3). reflexivity.
Defined.
